(** * cardio-audio-sleep: asynchronous timing generation and configuration

    A shallow embedding of
    - [cardio_audio_sleep/utils/async_timings.py] ([generate_async_timings])
    - [cardio_audio_sleep/config/config.py] ([load_config])

    Numbers.  The Python code works on NumPy [float64] arrays.  The
    generator is modelled twice.  In the first model a number is an exact
    rational ([Q]); it carries the statements that do not depend on how a
    sum or a difference is rounded: the shape of the result, the order of
    the checks, the exceptions, the store and the generator state.  The
    second model ([Arith]) is the same code over an arithmetic given by
    its operations, instantiated with IEEE binary64 ([Arith.float64]: the
    primitive floats, with rounding, infinities, signed zeros and NaN)
    and with the rationals ([Arith.exact]); it carries the statements on
    [perc], on order, on gaps and on the percentiles.  Arrays of Python
    integers, which NumPy holds as [int64], are not modelled.

    Objects.  Python sequences are mutable objects.  An array lives in a
    store ([heap]) at a location, [np.zeros] allocates, and the assignment
    [timings[k + 1] = ...] is an in-place update of the stored array.

    Randomness.  [np.random.choice] draws from NumPy's global generator.
    The generator state is a component of the world, threaded through
    every draw. *)

From Stdlib Require Import QArith Qround Lia List Permutation Sorted.
From Stdlib Require Import Lqa.
From Stdlib Require Import Floats Uint63.
From stdpp Require Import gmap list strings.

Local Open Scope Q_scope.

(** ** Comparisons on numbers, as booleans *)

Definition Qltb (x y : Q) : bool := negb (Qle_bool y x).

(** ** NumPy array functions used by the generator *)

Module Np.

(** [np.diff(a)]: [out[i] = a[i + 1] - a[i]]; empty for fewer than two
    elements. *)
Fixpoint diff (a : list Q) : list Q :=
  match a with
  | [] => []
  | x :: t =>
      match t with
      | [] => []
      | y :: _ => (y - x) :: diff t
      end
  end.

(** Order statistics: [np.percentile] partitions a copy of the data so
    that the elements at the requested ranks are the ones a full sort
    would put there. *)
Fixpoint insert_sorted (x : Q) (l : list Q) : list Q :=
  match l with
  | [] => [x]
  | y :: t => if Qle_bool x y then x :: y :: t else y :: insert_sorted x t
  end.

Fixpoint sort (l : list Q) : list Q :=
  match l with
  | [] => []
  | x :: t => insert_sorted x (sort t)
  end.

(** [_lerp(a, b, t)] of [numpy/lib/function_base.py]:
    [a + (b - a) * t], replaced by [b - (b - a) * (1 - t)] where
    [t >= 0.5]. *)
Definition lerp (a b t : Q) : Q :=
  if Qle_bool (1 # 2) t then b - (b - a) * (1 - t) else a + (b - a) * t.

(** [np.percentile(a, q)] with the default method (linear interpolation
    between the two closest ranks) on a non-empty array:
    the virtual index is [(n - 1) * q / 100], the ranks are its floor and
    the next one, both set to the last rank when the virtual index reaches
    it, both set to the first rank when it is negative.  The weight
    [gamma] is the distance of the virtual index to its floor; where the
    two ranks coincide its value has no effect on the interpolation. *)
Definition percentile_ranks (n : nat) (q : Q) : nat * nat * Q :=
  let last := (n - 1)%nat in
  let virtual := inject_Z (Z.of_nat last) * (q / 100) in
  let previous := Qfloor virtual in
  let gamma := virtual - inject_Z previous in
  if Qle_bool (inject_Z (Z.of_nat last)) virtual then (last, last, gamma)
  else if Qltb virtual 0 then (0%nat, 0%nat, gamma)
  else (Z.to_nat previous, Z.to_nat (previous + 1), gamma).

Definition percentile (a : list Q) (q : Q) : Q :=
  let s := sort a in
  let '(previous, next, gamma) := percentile_ranks (length a) q in
  lerp (nth previous s 0) (nth next s 0) gamma.

(** [np.where(cond)]: the indices at which [cond] is true, ascending. *)
Fixpoint where_from (i : nat) (cond : list bool) : list nat :=
  match cond with
  | [] => []
  | b :: t => if b then i :: where_from (S i) t else where_from (S i) t
  end.

Definition where_ (cond : list bool) : list nat := where_from 0 cond.

(** [a[idx]] for an index array [idx] (all indices in range here, since
    they come from [where_] on an array of the same length). *)
Definition take_indices (a : list Q) (idx : list nat) : list Q :=
  map (fun i => nth i a 0) idx.

(** [np.zeros((n,))] as a value. *)
Definition zeros (n : nat) : list Q := repeat 0 n.

End Np.

(** ** Exceptions, outcomes and the world *)

Inductive exn : Type :=
  | TypeError
  | ValueError
  | AssertionError
  | IndexError.

Inductive outcome (A : Type) : Type :=
  | Return (a : A)
  | Raise (e : exn).
Arguments Return {A} a.
Arguments Raise {A} e.

(** Locations of array objects. *)
Abbreviation loc := nat.

Section Generator.

(** The state of NumPy's global random generator, and one raw draw from
    it.  Nothing is assumed about the generator. *)
Variable rng : Type.
Variable rng_next : rng -> nat * rng.

(** [np.percentile] of an empty array is outside the generator's contract
    and NumPy versions differ on it: some raise from the indexing inside
    the percentile code, others return NaN.  The flag selects which. *)
Variable empty_percentile_raises : bool.

Record world : Type := World {
  heap : gmap loc (list Q);
  gen : rng
}.

Definition M (A : Type) : Type := world -> outcome A * world.

Definition ret {A} (a : A) : M A := fun w => (Return a, w).

Definition raise {A} (e : exn) : M A := fun w => (Raise e, w).

Definition bind {A B} (c : M A) (k : A -> M B) : M B :=
  fun w =>
    match c w with
    | (Return a, w') => k a w'
    | (Raise e, w') => (Raise e, w')
    end.

Notation "x <-- c ;; k" := (bind c (fun x => k))
  (at level 100, c at next level, right associativity).
Notation "c ;;; k" := (bind c (fun _ => k))
  (at level 100, right associativity).

(** *** Store operations *)

(** Reading a sequence argument.  A location that holds no array stands
    for an argument that is not a list, tuple or array, which
    [_check_type] rejects. *)
Definition check_sequence (l : loc) : M (list Q) :=
  fun w =>
    match heap w !! l with
    | Some a => (Return a, w)
    | None => (Raise TypeError, w)
    end.

(** [np.zeros((n,))]: a new array object at a location not in use. *)
Definition np_zeros (n : nat) : M loc :=
  fun w =>
    let l := fresh (dom (heap w)) in
    (Return l, World (<[l := Np.zeros n]> (heap w)) (gen w)).

(** [a[k]] *)
Definition getitem (l : loc) (k : nat) : M Q :=
  fun w =>
    match heap w !! l with
    | Some a =>
        match a !! k with
        | Some x => (Return x, w)
        | None => (Raise IndexError, w)
        end
    | None => (Raise TypeError, w)
    end.

(** [a[k] = x] *)
Definition setitem (l : loc) (k : nat) (x : Q) : M unit :=
  fun w =>
    match heap w !! l with
    | Some a =>
        if decide (k < length a)%nat
        then (Return tt, World (<[l := <[k := x]> a]> (heap w)) (gen w))
        else (Raise IndexError, w)
    | None => (Raise TypeError, w)
    end.

(** *** Random draws *)

(** One index in [0, bound), from one raw draw. *)
Definition randint (bound : nat) : M nat :=
  fun w =>
    let (r, g) := rng_next (gen w) in
    (Return (r mod bound)%nat, World (heap w) g).

(** [np.random.choice(a, size=size, replace=True)]: [size] independent
    draws of an element of [a]; an empty [a] is refused unless no sample
    is taken. *)
Fixpoint draw (a : list Q) (size : nat) : M (list Q) :=
  match size with
  | O => ret []
  | S size' =>
      i <-- randint (length a) ;;
      rest <-- draw a size' ;;
      ret (nth i a 0 :: rest)
  end.

Definition np_random_choice (a : list Q) (size : nat) : M (list Q) :=
  match a, size with
  | [], S _ => raise ValueError
  | _, _ => draw a size
  end.

(** *** Percentile with the empty case *)

(** [None] is NaN. *)
Definition np_percentile (a : list Q) (q : Q) : M (option Q) :=
  match a with
  | [] => if empty_percentile_raises then raise IndexError else ret None
  | _ :: _ => ret (Some (Np.percentile a q))
  end.

(** [p <= a] and [a <= p], elementwise; every comparison with NaN is
    false. *)
Definition le_scalar_array (p : option Q) (a : list Q) : list bool :=
  map (fun d => match p with Some v => Qle_bool v d | None => false end) a.

Definition le_array_scalar (a : list Q) (p : option Q) : list bool :=
  map (fun d => match p with Some v => Qle_bool d v | None => false end) a.

Definition and_arrays (x y : list bool) : list bool :=
  map (fun bc => andb (fst bc) (snd bc)) (combine x y).

(** *** The loop over [enumerate(delays)] *)

Fixpoint for_enumerate {A} (k : nat) (xs : list A)
    (body : nat -> A -> M unit) : M unit :=
  match xs with
  | [] => ret tt
  | x :: xs' => body k x ;;; for_enumerate (S k) xs' body
  end.

(** *** [generate_async_timings] *)

Definition generate_async_timings (sequence_timings : loc) (perc : Q)
    : M loc :=
  seq <-- check_sequence sequence_timings ;;
  if Qltb perc 0 || Qle_bool 50 perc then raise ValueError else
  (* remove bottom and top perc% *)
  let n := length seq in
  let diff := Np.diff seq in
  lo <-- np_percentile diff perc ;;
  hi <-- np_percentile diff (100 - perc) ;;
  let mask :=
    Np.where_ (and_arrays (le_scalar_array lo diff)
                          (le_array_scalar diff hi)) in
  let pool := Np.take_indices diff mask in
  if (length pool =? 0)%nat then raise AssertionError else
  (* generate sequence of 'n-1' valid inter-stimulus delays *)
  delays <-- np_random_choice pool (n - 1) ;;
  timings <-- np_zeros n ;;
  for_enumerate 0 delays (fun k delay =>
    tk <-- getitem timings k ;;
    setitem timings (k + 1) (tk + delay)) ;;;
  ret timings.

(** *** The same computation, read as values

    The retained pool is the value of [diff[mask]] (lines 45 to 49), with
    NaN percentiles on an empty [diff]. *)

Definition percentile_or_nan (a : list Q) (q : Q) : option Q :=
  match a with
  | [] => None
  | _ :: _ => Some (Np.percentile a q)
  end.

Definition retained_pool (seq : list Q) (perc : Q) : list Q :=
  let diff := Np.diff seq in
  let lo := percentile_or_nan diff perc in
  let hi := percentile_or_nan diff (100 - perc) in
  Np.take_indices diff
    (Np.where_ (and_arrays (le_scalar_array lo diff)
                           (le_array_scalar diff hi))).

(** The draws of [np.random.choice], as a function of the generator
    state. *)
Fixpoint draws (a : list Q) (size : nat) (g : rng) : list Q * rng :=
  match size with
  | O => ([], g)
  | S size' =>
      let (r, g1) := rng_next g in
      let (rest, g2) := draws a size' g1 in
      (nth (r mod length a)%nat a 0 :: rest, g2)
  end.

(** What the loop leaves in [timings], started at [acc]. *)
Fixpoint cumsum_from (acc : Q) (delays : list Q) : list Q :=
  match delays with
  | [] => [acc]
  | d :: delays' => acc :: cumsum_from (acc + d) delays'
  end.

(** The band test of lines 46 to 48. *)
Definition in_band (lo hi : option Q) (d : Q) : bool :=
  match lo with Some v => Qle_bool v d | None => false end &&
  match hi with Some v => Qle_bool d v | None => false end.

(** The body of the loop, run on the array at [t]. *)
Definition loop_body (t : loc) (k : nat) (delay : Q) : M unit :=
  tk <-- getitem t k ;; setitem t (k + 1) (tk + delay).

(** The array of a successful call. *)
Definition synthetic (seq : list Q) (perc : Q) (g : rng) : list Q :=
  cumsum_from 0
    (fst (draws (retained_pool seq perc) (length seq - 1) g)).

(** The result and the generator state after a call, as a function of
    the timings, perc and the generator state before it. *)
Definition outcome_of (seq : list Q) (perc : Q) (g : rng)
    : outcome (list Q) * rng :=
  if Qltb perc 0 || Qle_bool 50 perc then (Raise ValueError, g)
  else
    match Np.diff seq, retained_pool seq perc with
    | [], _ =>
        (Raise (if empty_percentile_raises then IndexError
                else AssertionError), g)
    | _ :: _, [] => (Raise AssertionError, g)
    | _ :: _, _ :: _ =>
        (Return (synthetic seq perc g),
         snd (draws (retained_pool seq perc) (length seq - 1) g))
    end.

(** The array a call hands back, or the exception it raises. *)
Definition returned (r : outcome loc * world) : outcome (list Q) :=
  match r with
  | (Return l, w) =>
      match heap w !! l with
      | Some a => Return a
      | None => Raise TypeError
      end
  | (Raise e, _) => Raise e
  end.

End Generator.

Arguments World {rng} heap gen.
Arguments heap {rng} w.
Arguments gen {rng} w.
Arguments returned {rng} r.

(** ** Configuration loading ([config.py]) *)

(** A value of the returned dictionaries. *)
Inductive pyval : Type :=
  | PyInt (z : Z)
  | PyFloat (x : Q)
  | PyNone.

Definition obind {A B} (c : outcome A) (k : A -> outcome B) : outcome B :=
  match c with
  | Return a => k a
  | Raise e => Raise e
  end.

(** [assert b] *)
Definition assert_ (b : bool) : outcome unit :=
  if b then Return tt else Raise AssertionError.

Section Config.

Local Open Scope string_scope.

(** Python's [int(str)] and [float(str)]; [None] when they raise
    [ValueError].  Both are builtins and are left open. *)
Variable py_int : string -> option Z.
Variable py_float : string -> option Q.

(** [{key: int(value) for key, value in dict(section).items()}] *)
Definition int_items (section : gmap string string)
    : outcome (gmap string pyval) :=
  if decide (map_Forall (fun _ v => is_Some (py_int v)) section)
  then Return (omap (fun v => PyInt <$> py_int v) section)
  else Raise ValueError.

(** [section.getfloat(key)]: [None] for a missing key, else
    [float(value)]. *)
Definition getfloat (section : gmap string string) (key : string)
    : outcome pyval :=
  match section !! key with
  | None => Return PyNone
  | Some v =>
      match py_float v with
      | Some x => Return (PyFloat x)
      | None => Raise ValueError
      end
  end.

(** [key in d] *)
Definition contains {V} (d : gmap string V) (key : string) : bool :=
  bool_decide (is_Some (d !! key)).

Definition required_sections : list string :=
  ["block"; "baseline"; "synchronous"; "isochronous"; "asynchronous"].

Definition stimuli_keys : list string :=
  ["n_stimuli"; "n_omissions"; "edge_perc"].

(** [config[name]] once [has_section(name)] is known. *)
Definition section (config : gmap string (gmap string string))
    (name : string) : gmap string string :=
  default ∅ (config !! name).

(** [load_config], from what the parser has read from [config.ini]: each
    section with the options the parser reports for it, as raw strings.
    A file that is missing or empty gives the empty map. *)
Definition load_config (config : gmap string (gmap string string))
    : outcome (gmap string (gmap string pyval)) :=
  if negb (forallb (contains config) required_sections)
  then Raise ValueError else
  (* Convert all to int *)
  obind (int_items (section config "block")) (fun block =>
  obind (int_items (section config "baseline")) (fun baseline =>
  obind (int_items (section config "synchronous")) (fun synchronous =>
  obind (int_items (section config "isochronous")) (fun isochronous =>
  obind (int_items (section config "asynchronous")) (fun asynchronous =>
  (* Check keys *)
  obind (assert_ (contains block "inter_block")) (fun _ =>
  obind (assert_ (contains baseline "duration")) (fun _ =>
  obind (assert_ (forallb (contains synchronous) stimuli_keys)) (fun _ =>
  obind (assert_ (forallb (contains isochronous) stimuli_keys)) (fun _ =>
  obind (assert_ (forallb (contains asynchronous) stimuli_keys)) (fun _ =>
  (* Overwrite edge_perc with float *)
  obind (getfloat (section config "synchronous") "edge_perc") (fun fs =>
  obind (getfloat (section config "isochronous") "edge_perc") (fun fi =>
  obind (getfloat (section config "asynchronous") "edge_perc") (fun fa =>
  Return (<["block" := block]>
         (<["baseline" := baseline]>
         (<["sync" := <["edge_perc" := fs]> synchronous]>
         (<["iso" := <["edge_perc" := fi]> isochronous]>
         (<["async" := <["edge_perc" := fa]> asynchronous]>
          ∅)))))))))))))))))).

(** The typing the loader's result is expected to have: [edge_perc] of
    the three stimulation blocks is a float, every other field is an
    integer. *)
Definition is_float (v : pyval) : bool :=
  match v with PyFloat _ => true | _ => false end.

Definition is_int (v : pyval) : bool :=
  match v with PyInt _ => true | _ => false end.

Definition float_field (name key : string) : bool :=
  bool_decide (name ∈ ["sync"; "iso"; "async"]) &&
  bool_decide (key = "edge_perc").

Definition well_typed (r : gmap string (gmap string pyval)) : Prop :=
  forall (name key : string) (d : gmap string pyval) (v : pyval),
    r !! name = Some d -> d !! key = Some v ->
    if float_field name key then is_float v = true else is_int v = true.

End Config.

(** ** Sample instances, for the examples *)

Module Sample.

Local Open Scope string_scope.

(** A generator that hands out its counter. *)
Definition counter_next (g : nat) : nat * nat := (g, S g).

Definition digit (c : Ascii.ascii) : option Z :=
  let n := Z.of_N (Ascii.N_of_ascii c) in
  if ((48 <=? n) && (n <=? 57))%Z then Some (n - 48)%Z else None.

Fixpoint digits (acc : Z) (s : string) : option Z :=
  match s with
  | EmptyString => Some acc
  | String c s' =>
      match digit c with
      | Some d => digits (10 * acc + d)%Z s'
      | None => None
      end
  end.

(** Plain decimal integers. *)
Definition decimal_int (s : string) : option Z :=
  match s with
  | EmptyString => None
  | String _ _ => digits 0 s
  end.

(** Plain decimal integers, read as numbers; nothing with a fraction. *)
Definition decimal_float (s : string) : option Q :=
  inject_Z <$> decimal_int s.

Definition stimuli (n_stimuli n_omissions edge_perc : string)
    : gmap string string :=
  <["n_stimuli" := n_stimuli]>
  (<["n_omissions" := n_omissions]>
  (<["edge_perc" := edge_perc]> ∅)).

(** A complete configuration. *)
Definition config_ok : gmap string (gmap string string) :=
  <["block" := <["inter_block" := "5"]> ∅]>
  (<["baseline" := <["duration" := "60"]> ∅]>
  (<["synchronous" := stimuli "50" "10" "10"]>
  (<["isochronous" := stimuli "50" "10" "10"]>
  (<["asynchronous" := stimuli "50" "10" "10"]> ∅)))).

(** All five sections, but [baseline] has no [duration]. *)
Definition config_no_duration : gmap string (gmap string string) :=
  <["baseline" := ∅]> config_ok.

(** What the loader makes of [config_ok]. *)
Definition loaded_ok : gmap string (gmap string pyval) :=
  match load_config decimal_int decimal_float config_ok with
  | Return r => r
  | Raise _ => ∅
  end.

(** A world whose only object is the array [a], at location [l], with
    the counter generator at [g]. *)
Definition world_of (l : loc) (a : list Q) (g : nat) : world nat :=
  World {[ l := a ]} g.

(** The generator under test: counter draws, and a percentile that
    raises on an empty array. *)
Definition generate : loc -> Q -> M nat loc :=
  generate_async_timings nat counter_next true.

End Sample.

(** ** The loader's conditions, one by one *)

Section ConfigConditions.

Local Open Scope string_scope.

Variable py_int : string -> option Z.
Variable py_float : string -> option Q.

(** The three stimulation sections of the file and the names of their
    blocks in the result. *)
Definition stimulation_sections : list string :=
  ["synchronous"; "isochronous"; "asynchronous"].

Definition renaming : list (string * string) :=
  [("block", "block"); ("baseline", "baseline");
   ("synchronous", "sync"); ("isochronous", "iso");
   ("asynchronous", "async")].

(** Lines 62 to 65 pass. *)
Definition sections_present (config : gmap string (gmap string string))
    : Prop :=
  Forall (fun name => is_Some (config !! name)) required_sections.

(** Lines 68 to 77 pass: [int] accepts every value of the five
    sections. *)
Definition ints_accepted (config : gmap string (gmap string string))
    : Prop :=
  Forall (fun name =>
            map_Forall (fun _ v => is_Some (py_int v)) (section config name))
         required_sections.

(** Lines 80 to 87 pass. *)
Definition keys_present (config : gmap string (gmap string string))
    : Prop :=
  is_Some (section config "block" !! "inter_block") /\
  is_Some (section config "baseline" !! "duration") /\
  Forall (fun name =>
            Forall (fun key => is_Some (section config name !! key))
                   stimuli_keys)
         stimulation_sections.

(** Lines 90 to 92 pass: [float] accepts the three [edge_perc]. *)
Definition floats_accepted (config : gmap string (gmap string string))
    : Prop :=
  Forall (fun name =>
            forall v, section config name !! "edge_perc" = Some v ->
                      is_Some (py_float v))
         stimulation_sections.

(** The converted value of one option, by the block it ends up in. *)
Definition converted (dst key value : string) : option pyval :=
  if float_field dst key then PyFloat <$> py_float value
  else PyInt <$> py_int value.

(** One block of the result: every option of the section, converted. *)
Definition typed_section (dst : string) (sec : gmap string string)
    : gmap string pyval :=
  map_imap (converted dst) sec.

(** The dictionary a successful load returns. *)
Definition loaded (config : gmap string (gmap string string))
    : gmap string (gmap string pyval) :=
  <["block" := typed_section "block" (section config "block")]>
  (<["baseline" := typed_section "baseline" (section config "baseline")]>
  (<["sync" := typed_section "sync" (section config "synchronous")]>
  (<["iso" := typed_section "iso" (section config "isochronous")]>
  (<["async" := typed_section "async" (section config "asynchronous")]>
   ∅)))).

End ConfigConditions.

(** ** Trigger loading ([load_triggers]) *)

Module Triggers.

Local Open Scope string_scope.

(** What [load_triggers] hands back: the trigger definition, or the
    [ValueError] of line 35, which names the missing key. *)
Inductive result (A : Type) : Type :=
  | Loaded (tdef : A)
  | MissingKey (key : string).
Arguments Loaded {A} tdef.
Arguments MissingKey {A} key.

Definition keys : list string :=
  ["sound"; "omission"; "sync_start"; "sync_stop"; "iso_start";
   "iso_stop"; "async_start"; "async_stop"; "baseline_start";
   "baseline_stop"].

(** The loop of lines 33 to 36 over the remaining keys: the first key
    that is not an attribute of [tdef] stops it. *)
Fixpoint check_keys {V} (tdef : gmap string V) (remaining : list string)
    : option string :=
  match remaining with
  | [] => None
  | key :: rest =>
      if contains tdef key then check_keys tdef rest else Some key
  end.

(** [load_triggers], from the trigger definition read from
    [triggers.ini]: the names defined there, each with its value.  The
    attributes of a [TriggerDef] other than the triggers themselves are
    left out; none of them bears one of the ten names. *)
Definition load_triggers {V} (tdef : gmap string V) : result (gmap string V) :=
  match check_keys tdef keys with
  | None => Loaded tdef
  | Some key => MissingKey key
  end.

End Triggers.

(** ** The generator over the arithmetic of the arrays

    The same function again, with the numbers and their operations left
    open: an instance of [Arith.ops] fixes what a number is, what the
    sum, difference, product and quotient of two numbers are, and how two
    numbers compare.  [Arith.float64] is IEEE binary64 (rounding,
    infinities and NaN included), the arithmetic NumPy uses on arrays of
    floats; [Arith.exact] is the arithmetic of the rationals. *)

Module Arith.

Record ops : Type := Ops {
  num : Type;
  (** the number an integer converts to *)
  of_Z : Z -> num;
  (** the literal [0.5] *)
  half : num;
  add : num -> num -> num;
  sub : num -> num -> num;
  mul : num -> num -> num;
  div : num -> num -> num;
  (** [x <= y] and [x < y] *)
  leb : num -> num -> bool;
  ltb : num -> num -> bool;
  (** [np.isnan] *)
  is_nan : num -> bool;
  (** [np.floor], as an index *)
  floor : num -> Z
}.

Section Generator.

Variable A : ops.
Variable rng : Type.
Variable rng_next : rng -> nat * rng.
Variable empty_percentile_raises : bool.

Local Abbreviation num := (num A).
Local Abbreviation zero := (of_Z A 0).
Local Abbreviation one := (of_Z A 1).
Local Abbreviation fifty := (of_Z A 50).
Local Abbreviation hundred := (of_Z A 100).
Local Abbreviation of_nat := (fun n : nat => of_Z A (Z.of_nat n)).

(** [np.diff(a)] *)
Fixpoint diff (a : list num) : list num :=
  match a with
  | [] => []
  | x :: t =>
      match t with
      | [] => []
      | y :: _ => sub A y x :: diff t
      end
  end.

(** The order of a sort: NaN goes last. *)
Definition before (x y : num) : bool := leb A x y || is_nan A y.

Fixpoint insert_sorted (x : num) (l : list num) : list num :=
  match l with
  | [] => [x]
  | y :: t => if before x y then x :: y :: t else y :: insert_sorted x t
  end.

Fixpoint sort (l : list num) : list num :=
  match l with
  | [] => []
  | x :: t => insert_sorted x (sort t)
  end.

(** [_lerp(a, b, t)] *)
Definition lerp (a b t : num) : num :=
  if leb A (half A) t then sub A b (mul A (sub A b a) (sub A one t))
  else add A a (mul A (sub A b a) t).

(** The two ranks and the weight for the quantile [q] of values ranked
    [0] to [last]: the virtual index [last * q], the ranks below and
    above it, and its distance to the rank below.  A virtual index at or
    past the end, or NaN, takes the last value twice (rank [-1] in NumPy,
    which is also the rank the weight is measured from); one below the
    start takes the first value twice. *)
Definition percentile_ranks (last : Z) (q : num) : Z * Z * num :=
  let virtual := mul A (of_Z A last) q in
  if leb A (of_Z A last) virtual
  then (last, last, sub A virtual (of_Z A (-1)))
  else if ltb A virtual zero then (0%Z, 0%Z, sub A virtual zero)
  else if is_nan A virtual
  then (last, last, sub A virtual (of_Z A (-1)))
  else
    let previous := floor A virtual in
    (previous, (previous + 1)%Z, sub A virtual (of_Z A previous)).

(** The quantile [q] of a non-empty array; [None] is the NaN NumPy
    returns when the data hold a NaN. *)
Definition quantile (a : list num) (q : num) : option num :=
  let s := sort a in
  if is_nan A (nth (length a - 1) s zero) then None
  else
    let '(previous, next, gamma) :=
      percentile_ranks (Z.of_nat (length a - 1)) q in
    Some (lerp (nth (Z.to_nat previous) s zero) (nth (Z.to_nat next) s zero)
            gamma).

(** [0.0 <= q <= 1.0], the test [np.percentile] makes on [perc / 100]
    before anything else. *)
Definition quantile_is_valid (perc : num) : bool :=
  let q := div A perc hundred in
  leb A zero q && leb A q one.

(** [a[idx]] *)
Definition take_indices (a : list num) (idx : list nat) : list num :=
  map (fun i => nth i a zero) idx.

(** [np.zeros((n,))] *)
Definition zeros (n : nat) : list num := repeat zero n.

Record world : Type := World {
  heap : gmap loc (list num);
  gen : rng
}.

Definition M (T : Type) : Type := world -> outcome T * world.

Definition ret {T} (a : T) : M T := fun w => (Return a, w).

Definition raise {T} (e : exn) : M T := fun w => (Raise e, w).

Definition bind {T U} (c : M T) (k : T -> M U) : M U :=
  fun w =>
    match c w with
    | (Return a, w') => k a w'
    | (Raise e, w') => (Raise e, w')
    end.

Notation "x <-- c ;; k" := (bind c (fun x => k))
  (at level 100, c at next level, right associativity).
Notation "c ;;; k" := (bind c (fun _ => k))
  (at level 100, right associativity).

Definition check_sequence (l : loc) : M (list num) :=
  fun w =>
    match heap w !! l with
    | Some a => (Return a, w)
    | None => (Raise TypeError, w)
    end.

Definition np_zeros (n : nat) : M loc :=
  fun w =>
    let l := fresh (dom (heap w)) in
    (Return l, World (<[l := zeros n]> (heap w)) (gen w)).

Definition getitem (l : loc) (k : nat) : M num :=
  fun w =>
    match heap w !! l with
    | Some a =>
        match a !! k with
        | Some x => (Return x, w)
        | None => (Raise IndexError, w)
        end
    | None => (Raise TypeError, w)
    end.

Definition setitem (l : loc) (k : nat) (x : num) : M unit :=
  fun w =>
    match heap w !! l with
    | Some a =>
        if decide (k < length a)%nat
        then (Return tt, World (<[l := <[k := x]> a]> (heap w)) (gen w))
        else (Raise IndexError, w)
    | None => (Raise TypeError, w)
    end.

Definition randint (bound : nat) : M nat :=
  fun w =>
    let (r, g) := rng_next (gen w) in
    (Return (r mod bound)%nat, World (heap w) g).

Fixpoint draw (a : list num) (size : nat) : M (list num) :=
  match size with
  | O => ret []
  | S size' =>
      i <-- randint (length a) ;;
      rest <-- draw a size' ;;
      ret (nth i a zero :: rest)
  end.

Definition np_random_choice (a : list num) (size : nat) : M (list num) :=
  match a, size with
  | [], S _ => raise ValueError
  | _, _ => draw a size
  end.

(** [np.percentile(a, perc)]: [perc / 100] must lie in [0, 1] (a NaN
    does not), or NumPy raises [ValueError]. *)
Definition np_percentile (a : list num) (perc : num) : M (option num) :=
  if negb (quantile_is_valid perc) then raise ValueError else
  match a with
  | [] => if empty_percentile_raises then raise IndexError else ret None
  | _ :: _ => ret (quantile a (div A perc hundred))
  end.

Definition le_scalar_array (p : option num) (a : list num) : list bool :=
  map (fun d => match p with Some v => leb A v d | None => false end) a.

Definition le_array_scalar (a : list num) (p : option num) : list bool :=
  map (fun d => match p with Some v => leb A d v | None => false end) a.

Fixpoint for_enumerate {T} (k : nat) (xs : list T)
    (body : nat -> T -> M unit) : M unit :=
  match xs with
  | [] => ret tt
  | x :: xs' => body k x ;;; for_enumerate (S k) xs' body
  end.

(** [generate_async_timings] *)
Definition generate_async_timings (sequence_timings : loc) (perc : num)
    : M loc :=
  seq <-- check_sequence sequence_timings ;;
  if ltb A perc zero || leb A fifty perc then raise ValueError else
  (* remove bottom and top perc% *)
  let n := length seq in
  let diff := diff seq in
  lo <-- np_percentile diff perc ;;
  hi <-- np_percentile diff (sub A hundred perc) ;;
  let mask :=
    Np.where_ (and_arrays (le_scalar_array lo diff)
                          (le_array_scalar diff hi)) in
  let pool := take_indices diff mask in
  if (length pool =? 0)%nat then raise AssertionError else
  (* generate sequence of 'n-1' valid inter-stimulus delays *)
  delays <-- np_random_choice pool (n - 1) ;;
  timings <-- np_zeros n ;;
  for_enumerate 0 delays (fun k delay =>
    tk <-- getitem timings k ;;
    setitem timings (k + 1) (add A tk delay)) ;;;
  ret timings.

(** *** The same computation, read as values *)

(** The lower and the upper edge of the band. *)
Definition band_edge (a : list num) (perc : num) : option num :=
  match a with
  | [] => None
  | _ :: _ => quantile a (div A perc hundred)
  end.

Definition in_band (lo hi : option num) (d : num) : bool :=
  match lo with Some v => leb A v d | None => false end &&
  match hi with Some v => leb A d v | None => false end.

Definition retained_pool (seq : list num) (perc : num) : list num :=
  let diff := diff seq in
  let lo := band_edge diff perc in
  let hi := band_edge diff (sub A hundred perc) in
  take_indices diff
    (Np.where_ (and_arrays (le_scalar_array lo diff)
                           (le_array_scalar diff hi))).

Fixpoint draws (a : list num) (size : nat) (g : rng) : list num * rng :=
  match size with
  | O => ([], g)
  | S size' =>
      let (r, g1) := rng_next g in
      let (rest, g2) := draws a size' g1 in
      (nth (r mod length a)%nat a zero :: rest, g2)
  end.

Fixpoint cumsum_from (acc : num) (delays : list num) : list num :=
  match delays with
  | [] => [acc]
  | d :: delays' => acc :: cumsum_from (add A acc d) delays'
  end.

Definition loop_body (t : loc) (k : nat) (delay : num) : M unit :=
  tk <-- getitem t k ;; setitem t (k + 1) (add A tk delay).

Definition synthetic (seq : list num) (perc : num) (g : rng) : list num :=
  cumsum_from zero
    (fst (draws (retained_pool seq perc) (length seq - 1) g)).

Definition returned (r : outcome loc * world) : outcome (list num) :=
  match r with
  | (Return l, w) =>
      match heap w !! l with
      | Some a => Return a
      | None => Raise TypeError
      end
  | (Raise e, _) => Raise e
  end.

(** Numerically equal: each is at most the other (so neither is NaN). *)
Definition eqvb (x y : num) : bool := leb A x y && leb A y x.

(** Finite: [x - x] is zero (it is NaN for an infinity and for NaN). *)
Definition finiteb (x : num) : bool := eqvb (sub A x x) zero.

(** Intervals that are finite and differ from each other by finite
    amounts. *)
Definition tame (a : list num) : bool :=
  forallb finiteb a &&
  forallb (fun x => forallb (fun y => finiteb (sub A y x)) a) a.

(** For intervals ranked [0] to [last], what the call computes from
    [last] and the literals alone when [perc] is zero: the test on [perc]
    passes, [0 / 100] and [(100 - 0) / 100] are quantiles, the ranks for
    the first are the first value (then its weight is finite) or the
    first and another (then the weight is zero), and the ranks for the
    second are the last value, with a finite weight. *)
Definition extremes_selected (last : Z) : bool :=
  negb (ltb A zero zero || leb A fifty zero) &&
  quantile_is_valid zero && quantile_is_valid (sub A hundred zero) &&
  (let '(previous, next, gamma) :=
     percentile_ranks last (div A zero hundred) in
   (previous =? 0)%Z && (0 <=? next)%Z && (next <=? last)%Z &&
   (if (next =? 0)%Z then finiteb gamma && finiteb (sub A one gamma)
    else eqvb gamma zero && negb (leb A (half A) gamma))) &&
  (let '(previous, next, gamma) :=
     percentile_ranks last (div A (sub A hundred zero) hundred) in
   (previous =? last)%Z && (next =? last)%Z &&
   finiteb gamma && finiteb (sub A one gamma)).

(** Sequences in the order of the arithmetic. *)
Definition strictly_increasing (a : list num) : Prop :=
  forall (i : nat) (x y : num),
    a !! i = Some x -> a !! S i = Some y -> ltb A x y = true.

Definition non_decreasing (a : list num) : Prop :=
  forall (i : nat) (x y : num),
    a !! i = Some x -> a !! S i = Some y -> leb A x y = true.

Fixpoint increasingb (a : list num) : bool :=
  match a with
  | [] => true
  | x :: t =>
      match t with
      | [] => true
      | y :: _ => ltb A x y && increasingb t
      end
  end.

Fixpoint non_decreasingb (a : list num) : bool :=
  match a with
  | [] => true
  | x :: t =>
      match t with
      | [] => true
      | y :: _ => leb A x y && non_decreasingb t
      end
  end.

(** *** Laws of an arithmetic

    Facts about comparisons, sums, differences and products that the
    theorems below rest on.  A comparison that is true involves no
    NaN. *)

(** The order. *)
Record order_laws : Prop := {
  leb_zero : leb A zero zero = true;
  ltb_leb : forall x y, ltb A x y = true -> leb A x y = true;
  leb_trans :
    forall x y z, leb A x y = true -> leb A y z = true -> leb A x z = true
}.

(** Rounding. *)
Record rounding_laws : Prop := {
  (** adding a non-negative number to a non-negative number does not
      decrease it, also when the sum is rounded *)
  add_nonneg :
    forall x d,
      leb A zero x = true -> leb A zero d = true ->
      leb A x (add A x d) = true;
  (** the difference of two distinct ordered numbers is positive: it is
      never rounded to zero *)
  sub_pos : forall x y, ltb A x y = true -> ltb A zero (sub A y x) = true
}.

(** Finite numbers and zero. *)
Record zero_laws : Prop := {
  leb_total :
    forall x y,
      finiteb x = true -> finiteb y = true -> leb A x y || leb A y x = true;
  finite_not_nan : forall x, finiteb x = true -> is_nan A x = false;
  mul_zero_l :
    forall z t,
      eqvb z zero = true -> finiteb t = true -> eqvb (mul A z t) zero = true;
  mul_zero_r :
    forall d t,
      finiteb d = true -> eqvb t zero = true -> eqvb (mul A d t) zero = true;
  add_zero :
    forall a z,
      finiteb a = true -> eqvb z zero = true -> eqvb (add A a z) a = true;
  sub_zero :
    forall a z,
      finiteb a = true -> eqvb z zero = true -> eqvb (sub A a z) a = true
}.

End Generator.

Arguments World {A rng} heap gen.
Arguments heap {A rng} w.
Arguments gen {A rng} w.
Arguments returned {A rng} r.

(** *** IEEE binary64, as the kernel computes it *)

(** The float of an integer (below [2^63] in absolute value). *)
Definition f_of_Z (z : Z) : float :=
  if (z <? 0)%Z then PrimFloat.opp (PrimFloat.of_uint63 (Uint63.of_Z (- z)))
  else PrimFloat.of_uint63 (Uint63.of_Z z).

(** [np.floor] of a finite float. *)
Definition f_floor (x : float) : Z :=
  match Prim2SF x with
  | S754_finite s m e =>
      let v := if s then Z.neg m else Z.pos m in
      if (0 <=? e)%Z then Z.shiftl v e else Z.shiftr v (- e)
  | _ => 0%Z
  end.

Definition float64 : ops :=
  Ops float f_of_Z 0.5%float PrimFloat.add PrimFloat.sub PrimFloat.mul
    PrimFloat.div PrimFloat.leb PrimFloat.ltb PrimFloat.is_nan f_floor.

(** *** The rationals *)

Definition exact : ops :=
  Ops Q inject_Z (1 # 2) Qplus Qminus Qmult Qdiv Qle_bool Qltb
    (fun _ => false) Qfloor.

(** [extremes_selected] for every [last] from [k] to [k + 2^depth - 1]. *)
Fixpoint extremes_in_range (A : ops) (depth : nat) (k : Z) : bool :=
  match depth with
  | O => extremes_selected A k
  | S depth' =>
      extremes_in_range A depth' k &&
      extremes_in_range A depth' (k + 2 ^ Z.of_nat depth')
  end.

End Arith.

(** Runs of the float64 generator, with a tape of integers for the
    random generator. *)
Module SampleFloat.

Definition tape_next (g : list nat) : nat * list nat :=
  match g with
  | [] => (0%nat, [])
  | r :: g' => (r, g')
  end.

Definition world_of (l : loc) (a : list float) (g : list nat)
    : Arith.world Arith.float64 (list nat) :=
  Arith.World (A := Arith.float64) {[ l := a ]} g.

Definition generate : loc -> float -> Arith.M Arith.float64 (list nat) loc :=
  Arith.generate_async_timings Arith.float64 (list nat) tape_next true.

End SampleFloat.

(** The floats that are neither NaN nor an infinity, in the specification
    of the primitive floats. *)
Definition SFfinite (x : spec_float) : bool :=
  match x with
  | S754_zero _ | S754_finite _ _ _ => true
  | _ => false
  end.

(** * Properties *)

(** ** Comparisons *)

Lemma Qltb_lt (x y : Q) : Qltb x y = true <-> x < y.
Proof.
  unfold Qltb. rewrite negb_true_iff.
  split; intro H.
  - apply Qnot_le_lt. intro Hle. apply Qle_bool_iff in Hle. congruence.
  - destruct (Qle_bool y x) eqn:E; [|reflexivity].
    apply Qle_bool_iff in E. exfalso. exact (Qlt_not_le _ _ H E).
Qed.

(** The range test of line 36. *)
Lemma perc_rejected_iff (perc : Q) :
  Qltb perc 0 || Qle_bool 50 perc = true <-> perc < 0 \/ 50 <= perc.
Proof.
  rewrite orb_true_iff, Qltb_lt, Qle_bool_iff. reflexivity.
Qed.

Lemma perc_accepted (perc : Q) :
  0 <= perc -> perc < 50 -> Qltb perc 0 || Qle_bool 50 perc = false.
Proof.
  intros H0 H50. apply not_true_is_false. rewrite perc_rejected_iff.
  intros [H | H].
  - exact (Qlt_not_le _ _ H H0).
  - exact (Qlt_not_le _ _ H50 H).
Qed.

(** ** Arrays *)

Lemma diff_length (a : list Q) : length (Np.diff a) = (length a - 1)%nat.
Proof.
  induction a as [|x [|y t] IH]; simpl in *; try reflexivity.
  rewrite IH. lia.
Qed.

Lemma diff_nonempty (a : list Q) :
  (2 <= length a)%nat -> Np.diff a <> [].
Proof.
  intros H E. apply (f_equal length) in E. rewrite diff_length in E.
  simpl in E. lia.
Qed.

Lemma and_arrays_map (f g : Q -> bool) (a : list Q) :
  and_arrays (map f a) (map g a) = map (fun d => f d && g d) a.
Proof.
  unfold and_arrays. induction a as [|x t IH]; simpl; [reflexivity|].
  f_equal. exact IH.
Qed.

(** Indexing with the indices of a mask keeps the masked elements. *)
Lemma take_where_from (f : Q -> bool) (a pre : list Q) :
  Np.take_indices (pre ++ a) (Np.where_from (length pre) (map f a))
  = List.filter f a.
Proof.
  revert pre. induction a as [|x t IH]; intros pre; simpl; [reflexivity|].
  assert (Hshift : Np.take_indices (pre ++ x :: t)
                     (Np.where_from (S (length pre)) (map f t))
                   = List.filter f t).
  { specialize (IH (pre ++ [x])).
    rewrite <- app_assoc, length_app in IH. simpl in IH.
    replace (length pre + 1)%nat with (S (length pre)) in IH by lia.
    exact IH. }
  destruct (f x); simpl; rewrite Hshift; [|reflexivity].
  f_equal. rewrite app_nth2 by lia.
  replace (length pre - length pre)%nat with 0%nat by lia. reflexivity.
Qed.

Lemma take_where (f : Q -> bool) (a : list Q) :
  Np.take_indices a (Np.where_ (map f a)) = List.filter f a.
Proof. exact (take_where_from f a []). Qed.

Lemma retained_pool_filter (seq : list Q) (perc : Q) :
  retained_pool seq perc
  = List.filter
      (in_band (percentile_or_nan (Np.diff seq) perc)
               (percentile_or_nan (Np.diff seq) (100 - perc)))
      (Np.diff seq).
Proof.
  unfold retained_pool, le_scalar_array, le_array_scalar.
  rewrite and_arrays_map. apply take_where.
Qed.

Lemma retained_pool_short (seq : list Q) (perc : Q) :
  Np.diff seq = [] -> retained_pool seq perc = [].
Proof.
  intros E. rewrite retained_pool_filter, E. reflexivity.
Qed.

(** ** The generator *)

Section GeneratorProperties.

Variable rng : Type.
Variable rng_next : rng -> nat * rng.
Variable empty_percentile_raises : bool.

Local Abbreviation generate :=
  (generate_async_timings rng rng_next empty_percentile_raises).
Local Abbreviation choose := (draws rng rng_next).
Local Abbreviation loop_body := (loop_body rng).
Local Abbreviation synthetic := (synthetic rng rng_next).
Local Abbreviation outcome_of :=
  (outcome_of rng rng_next empty_percentile_raises).

(** *** Sequencing *)

Lemma bind_return {A B} (c : M rng A) (k : A -> M rng B) (w w' : world rng)
    (a : A) :
  c w = (Return a, w') -> bind rng c k w = k a w'.
Proof. intros H. unfold bind. rewrite H. reflexivity. Qed.

Lemma bind_raise {A B} (c : M rng A) (k : A -> M rng B) (w w' : world rng)
    (e : exn) :
  c w = (Raise e, w') -> bind rng c k w = (Raise e, w').
Proof. intros H. unfold bind. rewrite H. reflexivity. Qed.

(** *** Draws *)

Lemma draw_draws (a : list Q) (size : nat) (w : world rng) :
  draw rng rng_next a size w
  = (Return (fst (choose a size (gen w))),
     World (heap w) (snd (choose a size (gen w)))).
Proof.
  revert w. induction size as [|size IH]; intros w.
  - destruct w; reflexivity.
  - simpl. unfold bind at 1. unfold randint.
    destruct (rng_next (gen w)) as [r g1] eqn:Er.
    unfold bind at 1. rewrite IH. simpl.
    destruct (choose a size g1) as [rest g2]. reflexivity.
Qed.

Lemma choice_draws (a : list Q) (size : nat) (w : world rng) :
  a <> [] ->
  np_random_choice rng rng_next a size w
  = (Return (fst (choose a size (gen w))),
     World (heap w) (snd (choose a size (gen w)))).
Proof.
  intros Ha. unfold np_random_choice.
  destruct a as [|x t]; [congruence|]. apply draw_draws.
Qed.

Lemma draws_length (a : list Q) (size : nat) (g : rng) :
  length (fst (choose a size g)) = size.
Proof.
  revert g. induction size as [|size IH]; intros g; simpl; [reflexivity|].
  destruct (rng_next g) as [r g1]. specialize (IH g1).
  destruct (choose a size g1) as [rest g2]. simpl in *. lia.
Qed.

(** *** The summation loop *)

Lemma cumsum_from_length (acc : Q) (ds : list Q) :
  length (cumsum_from acc ds) = S (length ds).
Proof.
  revert acc. induction ds as [|d ds IH]; intros acc; simpl;
    [reflexivity|]. rewrite IH. reflexivity.
Qed.

Lemma cumsum_from_head (acc : Q) (ds : list Q) :
  cumsum_from acc ds !! 0%nat = Some acc.
Proof. destruct ds; reflexivity. Qed.

(** Element [k + 1] is element [k] plus delay [k]. *)
Lemma cumsum_from_step (acc : Q) (ds : list Q) (k : nat) (d : Q) :
  ds !! k = Some d ->
  exists x, cumsum_from acc ds !! k = Some x /\
            cumsum_from acc ds !! S k = Some (x + d).
Proof.
  revert acc k. induction ds as [|d0 ds IH]; intros acc k H;
    [discriminate|].
  destruct k as [|k]; simpl in *.
  - injection H as ->. exists acc. split; [reflexivity|].
    apply cumsum_from_head.
  - exact (IH (acc + d0) k H).
Qed.

Lemma loop_body_step (t : loc) (pre rest : list Q) (x z d : Q)
    (h : gmap loc (list Q)) (g : rng) :
  h !! t = Some (pre ++ x :: z :: rest) ->
  loop_body t (length pre) d (World h g)
  = (Return tt, World (<[t := (pre ++ [x]) ++ (x + d) :: rest]> h) g).
Proof.
  intros Ht. unfold loop_body, bind, getitem, setitem. simpl.
  rewrite Ht. rewrite list_lookup_middle by reflexivity.
  simpl. rewrite Ht.
  destruct (decide (length pre + 1 < length (pre ++ x :: z :: rest))%nat)
    as [_|Hn].
  - do 3 f_equal.
    replace (pre ++ x :: z :: rest) with ((pre ++ [x]) ++ z :: rest)
      by (rewrite <- app_assoc; reflexivity).
    replace (length pre + 1)%nat with (length (pre ++ [x]) + 0)%nat
      by (rewrite length_app; simpl; lia).
    rewrite insert_app_r. reflexivity.
  - exfalso. apply Hn. rewrite length_app. simpl. lia.
Qed.

Lemma loop_spec (t : loc) (ds pre : list Q) (x : Q)
    (h : gmap loc (list Q)) (g : rng) :
  h !! t = Some (pre ++ x :: Np.zeros (length ds)) ->
  for_enumerate rng (length pre) ds (loop_body t) (World h g)
  = (Return tt, World (<[t := pre ++ cumsum_from x ds]> h) g).
Proof.
  revert pre x h. induction ds as [|d ds IH]; intros pre x h Ht.
  - simpl. unfold ret. rewrite insert_id by exact Ht. reflexivity.
  - unfold Np.zeros in *. simpl in *.
    rewrite (bind_return _ _ _ _ _ (loop_body_step t pre _ x 0 d h g Ht)).
    replace (S (length pre)) with (length (pre ++ [x]))
      by (rewrite length_app; simpl; lia).
    rewrite (IH (pre ++ [x]) (x + d)) by apply lookup_insert_eq.
    rewrite insert_insert_eq, <- app_assoc. reflexivity.
Qed.

(** *** The outcome of a call, case by case *)

Lemma check_sequence_some (l : loc) (seq : list Q) (w : world rng) :
  heap w !! l = Some seq -> check_sequence rng l w = (Return seq, w).
Proof. intros H. unfold check_sequence. rewrite H. reflexivity. Qed.

Lemma np_percentile_value (a : list Q) (q : Q) (w : world rng) :
  a <> [] ->
  np_percentile rng empty_percentile_raises a q w
  = (Return (percentile_or_nan a q), w).
Proof. destruct a; [congruence|reflexivity]. Qed.

(** The argument is not a sequence. *)
Lemma generate_type_error (l : loc) (perc : Q) (w : world rng) :
  heap w !! l = None -> generate l perc w = (Raise TypeError, w).
Proof.
  intros H. unfold generate_async_timings. apply bind_raise.
  unfold check_sequence. rewrite H. reflexivity.
Qed.

(** [perc] is out of range. *)
Lemma generate_value_error (l : loc) (seq : list Q) (perc : Q)
    (w : world rng) :
  heap w !! l = Some seq -> perc < 0 \/ 50 <= perc ->
  generate l perc w = (Raise ValueError, w).
Proof.
  intros H Hp. unfold generate_async_timings.
  rewrite (bind_return _ _ _ _ _ (check_sequence_some l seq w H)).
  rewrite (proj2 (perc_rejected_iff perc) Hp). reflexivity.
Qed.

(** Fewer than two timings: there is no interval at all. *)
Lemma generate_no_interval (l : loc) (seq : list Q) (perc : Q)
    (w : world rng) :
  heap w !! l = Some seq -> 0 <= perc -> perc < 50 -> Np.diff seq = [] ->
  generate l perc w
  = (Raise (if empty_percentile_raises then IndexError else AssertionError),
     w).
Proof.
  intros H H0 H50 Hd. unfold generate_async_timings.
  rewrite (bind_return _ _ _ _ _ (check_sequence_some l seq w H)).
  rewrite (perc_accepted perc H0 H50). cbv zeta. rewrite Hd.
  destruct empty_percentile_raises; reflexivity.
Qed.

(** Intervals exist but none is retained. *)
Lemma generate_empty_pool (l : loc) (seq : list Q) (perc : Q)
    (w : world rng) :
  heap w !! l = Some seq -> 0 <= perc -> perc < 50 ->
  Np.diff seq <> [] -> retained_pool seq perc = [] ->
  generate l perc w = (Raise AssertionError, w).
Proof.
  intros H H0 H50 Hd Hp. unfold generate_async_timings.
  rewrite (bind_return _ _ _ _ _ (check_sequence_some l seq w H)).
  rewrite (perc_accepted perc H0 H50). cbv zeta.
  rewrite (bind_return _ _ _ _ _ (np_percentile_value _ perc w Hd)).
  rewrite (bind_return _ _ _ _ _ (np_percentile_value _ (100 - perc) w Hd)).
  fold (retained_pool seq perc). rewrite Hp. reflexivity.
Qed.

Lemma generate_success (l : loc) (seq : list Q) (perc : Q)
    (w : world rng) :
  heap w !! l = Some seq -> 0 <= perc -> perc < 50 ->
  retained_pool seq perc <> [] ->
  generate l perc w
  = (Return (fresh (dom (heap w))),
     World (<[fresh (dom (heap w)) := synthetic seq perc (gen w)]> (heap w))
           (snd (choose (retained_pool seq perc) (length seq - 1) (gen w)))).
Proof.
  intros H H0 H50 Hp.
  assert (Hd : Np.diff seq <> []).
  { intros E. apply Hp. apply retained_pool_short. exact E. }
  assert (Hn : (length seq - 1 <> 0)%nat).
  { rewrite <- diff_length. destruct (Np.diff seq); simpl; congruence. }
  unfold generate_async_timings.
  rewrite (bind_return _ _ _ _ _ (check_sequence_some l seq w H)).
  rewrite (perc_accepted perc H0 H50). cbv zeta.
  rewrite (bind_return _ _ _ _ _ (np_percentile_value _ perc w Hd)).
  rewrite (bind_return _ _ _ _ _ (np_percentile_value _ (100 - perc) w Hd)).
  fold (retained_pool seq perc).
  destruct (length (retained_pool seq perc) =? 0)%nat eqn:El.
  { apply Nat.eqb_eq in El. destruct (retained_pool seq perc);
      [congruence|discriminate]. }
  rewrite (bind_return _ _ _ _ _ (choice_draws _ (length seq - 1) w Hp)).
  set (ds := fst (choose (retained_pool seq perc) (length seq - 1) (gen w))).
  set (g' := snd (choose (retained_pool seq perc) (length seq - 1) (gen w))).
  set (t := fresh (dom (heap w))).
  unfold bind at 1. unfold np_zeros at 1. cbn [heap gen].
  fold t.
  assert (Hz : Np.zeros (length seq) = [] ++ 0 :: Np.zeros (length ds)).
  { unfold ds. rewrite draws_length. unfold Np.zeros.
    destruct (length seq) as [|m]; [lia|]. simpl.
    rewrite Nat.sub_0_r. reflexivity. }
  pose proof (loop_spec t ds [] 0 (<[t := Np.zeros (length seq)]> (heap w)) g')
    as Hloop.
  rewrite lookup_insert_eq in Hloop. specialize (Hloop (f_equal Some Hz)).
  simpl in Hloop. unfold loop_body in Hloop.
  rewrite (bind_return _ _ _ _ _ Hloop).
  unfold ret. rewrite insert_insert_eq. reflexivity.
Qed.

(** A call either raises and leaves the world as it was, or returns the
    new array described by [generate_success]. *)
Lemma generate_cases (l : loc) (perc : Q) (w : world rng) :
  (exists e, generate l perc w = (Raise e, w)) \/
  (exists seq,
     heap w !! l = Some seq /\ 0 <= perc /\ perc < 50 /\
     retained_pool seq perc <> [] /\
     generate l perc w
     = (Return (fresh (dom (heap w))),
        World (<[fresh (dom (heap w)) := synthetic seq perc (gen w)]> (heap w))
              (snd (choose (retained_pool seq perc) (length seq - 1)
                      (gen w))))).
Proof.
  destruct (heap w !! l) as [seq|] eqn:H.
  2:{ left. eexists. apply generate_type_error. exact H. }
  destruct (Qlt_le_dec perc 0) as [Hneg|H0].
  { left. eexists. eapply generate_value_error; eauto. }
  destruct (Qlt_le_dec perc 50) as [H50|Hbig].
  2:{ left. eexists. eapply generate_value_error; eauto. }
  destruct (retained_pool seq perc) as [|d0 t] eqn:Hp.
  - left. destruct (Np.diff seq) as [|x t] eqn:Hd.
    + eexists. apply (generate_no_interval l seq); assumption.
    + eexists. apply (generate_empty_pool l seq); try assumption.
      rewrite Hd. discriminate.
  - right. exists seq.
    assert (Hne : retained_pool seq perc <> []) by (rewrite Hp; discriminate).
    repeat split; try assumption.
    apply generate_success; assumption.
Qed.

Lemma synthetic_length (seq : list Q) (perc : Q) (g : rng) :
  (1 <= length seq)%nat -> length (synthetic seq perc g) = length seq.
Proof.
  intros Hn. unfold synthetic. rewrite cumsum_from_length, draws_length. lia.
Qed.

(** C1: for an input of length n >= 2 and perc in [0, 50) with a
    non-empty retained pool, the call returns an array of length n that
    starts at 0 and in which element k is element k-1 plus the (k-1)-th
    drawn delay, for k from 1 to n-1. *)
Theorem generate_cumulative_sum (l : loc) (seq : list Q) (perc : Q)
    (w : world rng) :
  heap w !! l = Some seq -> (2 <= length seq)%nat ->
  0 <= perc -> perc < 50 -> retained_pool seq perc <> [] ->
  exists (l' : loc) (w' : world rng) (out delays : list Q),
    generate l perc w = (Return l', w') /\
    heap w' !! l' = Some out /\
    delays = fst (choose (retained_pool seq perc) (length seq - 1) (gen w)) /\
    length delays = (length seq - 1)%nat /\
    length out = length seq /\
    out !! 0%nat = Some 0 /\
    forall k : nat, (1 <= k <= length seq - 1)%nat ->
      exists x d : Q,
        out !! (k - 1)%nat = Some x /\
        delays !! (k - 1)%nat = Some d /\
        out !! k = Some (x + d).
Proof.
  intros H Hn H0 H50 Hp.
  eexists _, _, (synthetic seq perc (gen w)), _.
  split; [apply (generate_success l seq); assumption|].
  split; [cbn [heap]; apply lookup_insert_eq|].
  split; [reflexivity|].
  split; [apply draws_length|].
  split; [apply synthetic_length; lia|].
  split; [apply cumsum_from_head|].
  intros k Hk.
  set (ds := fst (choose (retained_pool seq perc) (length seq - 1) (gen w))).
  assert (Hlt : (k - 1 < length ds)%nat).
  { unfold ds. rewrite draws_length. lia. }
  destruct (lookup_lt_is_Some_2 ds (k - 1) Hlt) as [d Hd].
  destruct (cumsum_from_step 0 ds (k - 1) d Hd) as (x & Hx & Hy).
  exists x, d. replace (S (k - 1)) with k in Hy by lia. auto.
Qed.

(** C2: when no interval is retained the call raises; nothing is
    returned, no array is created and no draw is made.  For an input of
    at least two timings the exception is the failed assertion of
    line 50. *)
Theorem generate_empty_pool_raises (l : loc) (seq : list Q) (perc : Q)
    (w : world rng) :
  heap w !! l = Some seq -> 0 <= perc -> perc < 50 ->
  retained_pool seq perc = [] ->
  exists e : exn,
    generate l perc w = (Raise e, w) /\
    ((2 <= length seq)%nat -> e = AssertionError).
Proof.
  intros H H0 H50 Hp.
  destruct (Np.diff seq) as [|x t] eqn:Hd.
  - eexists. split; [apply (generate_no_interval l seq); assumption|].
    intros Hn. exfalso. exact (diff_nonempty seq Hn Hd).
  - exists AssertionError. split; [|reflexivity].
    apply (generate_empty_pool l seq); try assumption.
    rewrite Hd. discriminate.
Qed.

(** C9: a call never changes an array that existed before it, its own
    argument included, whether it returns or raises; the array it
    returns is a new object, at a location that held nothing before and
    is not the argument's. *)
Theorem generate_frame (l : loc) (perc : Q) (w : world rng) :
  (forall (l0 : loc) (a : list Q),
     heap w !! l0 = Some a ->
     heap (snd (generate l perc w)) !! l0 = Some a) /\
  (forall l' : loc,
     fst (generate l perc w) = Return l' ->
     heap w !! l' = None /\
     (is_Some (heap w !! l) -> l' <> l) /\
     is_Some (heap (snd (generate l perc w)) !! l')).
Proof.
  assert (Hfresh : heap w !! fresh (dom (heap w)) = None).
  { apply not_elem_of_dom. apply is_fresh. }
  destruct (generate_cases l perc w)
    as [[e He] | (seq & H & H0 & H50 & Hp & Hs)].
  - rewrite He. split; [intros l0 a Ha; exact Ha|].
    intros l' Hr. discriminate.
  - rewrite Hs. cbn [fst snd heap]. split.
    + intros l0 a Ha. rewrite lookup_insert_ne; [exact Ha|].
      intros <-. congruence.
    + intros l' Hr. injection Hr as <-.
      split; [exact Hfresh|]. split.
      * intros [a Ha] E. rewrite E in Hfresh. congruence.
      * rewrite lookup_insert_eq. eauto.
Qed.

(** *** A pool with a single value *)

Lemma draws_constant (a : list Q) (v : Q) (size : nat) (g : rng) :
  a <> [] -> (forall x, In x a -> x = v) ->
  fst (choose a size g) = repeat v size.
Proof.
  intros Ha Hv. revert g. induction size as [|size IH]; intros g; simpl;
    [reflexivity|].
  destruct (rng_next g) as [r g1]. specialize (IH g1).
  destruct (choose a size g1) as [rest g2]. simpl in *. f_equal; [|exact IH].
  apply Hv. apply nth_In. apply Nat.mod_upper_bound.
  destruct a; simpl; [congruence|lia].
Qed.

(** C5: on [0, 1, 2, 3, 4, 5] with perc = 10 the call returns
    [0, 1, 2, 3, 4, 5], whatever the generator draws. *)
Theorem generate_unit_steps (l : loc) (w : world rng) :
  heap w !! l = Some [0; 1; 2; 3; 4; 5] ->
  returned (generate l 10 w) = Return [0; 1; 2; 3; 4; 5].
Proof.
  intros H.
  assert (Hpool : retained_pool [0; 1; 2; 3; 4; 5] 10 = [1; 1; 1; 1; 1])
    by (vm_compute; reflexivity).
  rewrite (generate_success l _ 10 w H).
  - unfold returned. cbn [heap]. rewrite lookup_insert_eq.
    unfold synthetic. rewrite Hpool.
    rewrite (draws_constant _ 1); [reflexivity|discriminate|].
    intros x Hx. simpl in Hx. intuition congruence.
  - apply Qle_bool_iff. reflexivity.
  - apply Qltb_lt. reflexivity.
  - rewrite Hpool. discriminate.
Qed.

(** *** The call as a function of the sequence and the generator state *)

Lemma generate_outcome (l : loc) (seq : list Q) (perc : Q) (w : world rng) :
  heap w !! l = Some seq ->
  (returned (generate l perc w), gen (snd (generate l perc w)))
  = outcome_of seq perc (gen w).
Proof.
  intros H. unfold outcome_of.
  destruct (Qltb perc 0 || Qle_bool 50 perc) eqn:Er.
  { apply perc_rejected_iff in Er.
    rewrite (generate_value_error l seq perc w H Er). reflexivity. }
  assert (H0 : 0 <= perc).
  { apply Qnot_lt_le. intros Hlt.
    assert (Ht : Qltb perc 0 || Qle_bool 50 perc = true)
      by (apply perc_rejected_iff; left; exact Hlt).
    congruence. }
  assert (H50 : perc < 50).
  { apply Qnot_le_lt. intros Hle.
    assert (Ht : Qltb perc 0 || Qle_bool 50 perc = true)
      by (apply perc_rejected_iff; right; exact Hle).
    congruence. }
  destruct (Np.diff seq) as [|x t] eqn:Hd.
  { rewrite (generate_no_interval l seq perc w H H0 H50 Hd). reflexivity. }
  destruct (retained_pool seq perc) as [|d0 p] eqn:Hp.
  { rewrite (generate_empty_pool l seq perc w H H0 H50); [reflexivity| |exact Hp].
    rewrite Hd. discriminate. }
  rewrite (generate_success l seq perc w H H0 H50)
    by (rewrite Hp; discriminate).
  unfold returned. cbn [snd heap gen]. rewrite lookup_insert_eq.
  rewrite Hp. reflexivity.
Qed.

(** C7: two calls on the same timings with the same perc, started from
    the same generator state, give the same result (the same array
    contents, or the same exception) and leave the generator in the same
    state, wherever the two input arrays are stored and whatever else
    the two stores hold. *)
Theorem generate_deterministic (l1 l2 : loc) (seq : list Q) (perc : Q)
    (w1 w2 : world rng) :
  heap w1 !! l1 = Some seq -> heap w2 !! l2 = Some seq ->
  gen w1 = gen w2 ->
  returned (generate l1 perc w1) = returned (generate l2 perc w2) /\
  gen (snd (generate l1 perc w1)) = gen (snd (generate l2 perc w2)).
Proof.
  intros H1 H2 Hg.
  pose proof (generate_outcome l1 seq perc w1 H1) as E1.
  pose proof (generate_outcome l2 seq perc w2 H2) as E2.
  rewrite Hg in E1. rewrite <- E2 in E1.
  injection E1 as Er Egen. split; assumption.
Qed.

End GeneratorProperties.

(** ** The configuration loader *)

Section ConfigProperties.

Local Open Scope string_scope.

Variable py_int : string -> option Z.
Variable py_float : string -> option Q.

Local Abbreviation to_int := (int_items py_int).
Local Abbreviation load := (load_config py_int py_float).

Lemma int_items_lookup (sec : gmap string string) (d : gmap string pyval)
    (key : string) :
  to_int sec = Return d ->
  d !! key = (sec !! key) ≫= (fun v => PyInt <$> py_int v).
Proof.
  unfold int_items. destruct (decide _); [|discriminate].
  intros E. injection E as <-. apply lookup_omap.
Qed.

(** Every value of a converted section is an integer. *)
Lemma int_items_is_int (sec : gmap string string) (d : gmap string pyval)
    (key : string) (v : pyval) :
  to_int sec = Return d -> d !! key = Some v -> is_int v = true.
Proof.
  intros E Hv. rewrite (int_items_lookup sec d key E) in Hv.
  destruct (sec !! key) as [s|]; [|discriminate]. simpl in Hv.
  destruct (py_int s); [|discriminate]. simpl in Hv.
  injection Hv as <-. reflexivity.
Qed.

(** A key of a converted section is a key of the section. *)
Lemma int_items_key (sec : gmap string string) (d : gmap string pyval)
    (key : string) :
  to_int sec = Return d -> contains d key = true -> is_Some (sec !! key).
Proof.
  intros E Hc. unfold contains in Hc. apply bool_decide_eq_true_1 in Hc.
  rewrite (int_items_lookup sec d key E) in Hc.
  destruct (sec !! key) as [s|]; [eauto|].
  destruct Hc as [v Hv]. discriminate.
Qed.

(** [getfloat] on a key that is present gives a float. *)
Lemma getfloat_is_float (sec : gmap string string) (key : string)
    (f : pyval) :
  is_Some (sec !! key) -> getfloat py_float sec key = Return f ->
  is_float f = true.
Proof.
  intros [s Hs]. unfold getfloat. rewrite Hs.
  destruct (py_float s); [|discriminate].
  intros E. injection E as <-. reflexivity.
Qed.

Lemma assert_inv (b : bool) (u : unit) : assert_ b = Return u -> b = true.
Proof. destruct b; [reflexivity|discriminate]. Qed.

(** The fields of a stimulation block after the overwrite. *)
Lemma stimuli_block_typed (sec : gmap string string)
    (d : gmap string pyval) (f : pyval) (name key : string) (v : pyval) :
  to_int sec = Return d ->
  forallb (contains d) stimuli_keys = true ->
  getfloat py_float sec "edge_perc" = Return f ->
  name ∈ ["sync"; "iso"; "async"] ->
  <["edge_perc" := f]> d !! key = Some v ->
  if float_field name key then is_float v = true else is_int v = true.
Proof.
  intros E Hk Hf Hname Hv. unfold float_field.
  rewrite (bool_decide_eq_true_2 _ Hname). simpl.
  destruct (decide (key = "edge_perc")) as [->|Hne].
  - rewrite bool_decide_eq_true_2 by reflexivity.
    rewrite lookup_insert_eq in Hv. injection Hv as <-.
    apply (getfloat_is_float sec "edge_perc"); [|exact Hf].
    apply (int_items_key sec d); [exact E|].
    simpl in Hk. repeat (apply andb_true_iff in Hk; destruct Hk as [? Hk]).
    assumption.
  - rewrite bool_decide_eq_false_2 by exact Hne.
    rewrite lookup_insert_ne in Hv by congruence.
    exact (int_items_is_int sec d key v E Hv).
Qed.

(** C10, amended: whenever the loader returns, [edge_perc] of the three
    stimulation blocks is a float and every other field of the result is
    an integer. *)
Theorem load_config_well_typed (config : gmap string (gmap string string))
    (r : gmap string (gmap string pyval)) :
  load config = Return r ->
  well_typed r /\
  forall name : string,
    name ∈ ["sync"; "iso"; "async"] ->
    exists (d : gmap string pyval) (x : Q),
      r !! name = Some d /\ d !! "edge_perc" = Some (PyFloat x).
Proof.
  unfold load_config.
  destruct (negb _); [discriminate|].
  destruct (to_int (section config "block")) as [block|] eqn:Eb;
    [|discriminate].
  destruct (to_int (section config "baseline")) as [baseline|] eqn:Ea;
    [|discriminate].
  destruct (to_int (section config "synchronous")) as [sy|] eqn:Es;
    [|discriminate].
  destruct (to_int (section config "isochronous")) as [iso|] eqn:Ei;
    [|discriminate].
  destruct (to_int (section config "asynchronous")) as [asy|] eqn:Ey;
    [|discriminate].
  cbn [obind].
  destruct (assert_ (contains block "inter_block")); [|discriminate].
  destruct (assert_ (contains baseline "duration")); [|discriminate].
  cbn [obind].
  destruct (assert_ (forallb (contains sy) stimuli_keys)) eqn:As;
    [|discriminate].
  destruct (assert_ (forallb (contains iso) stimuli_keys)) eqn:Ai;
    [|discriminate].
  destruct (assert_ (forallb (contains asy) stimuli_keys)) eqn:Ay;
    [|discriminate].
  apply assert_inv in As, Ai, Ay. cbn [obind].
  destruct (getfloat py_float (section config "synchronous") "edge_perc")
    as [fs|] eqn:Fs; [|discriminate].
  destruct (getfloat py_float (section config "isochronous") "edge_perc")
    as [fi|] eqn:Fi; [|discriminate].
  destruct (getfloat py_float (section config "asynchronous") "edge_perc")
    as [fa|] eqn:Fa; [|discriminate].
  cbn [obind]. intros E. injection E as <-.
  assert (Tsy := fun key v =>
    stimuli_block_typed _ sy fs "sync" key v Es As Fs ltac:(set_solver)).
  assert (Tiso := fun key v =>
    stimuli_block_typed _ iso fi "iso" key v Ei Ai Fi ltac:(set_solver)).
  assert (Tasy := fun key v =>
    stimuli_block_typed _ asy fa "async" key v Ey Ay Fa ltac:(set_solver)).
  split.
  - intros name key d v Hr Hd.
    destruct (decide (name = "block")) as [->|N1].
    { rewrite lookup_insert_eq in Hr. injection Hr as <-.
      exact (int_items_is_int _ _ _ _ Eb Hd). }
    rewrite lookup_insert_ne in Hr by congruence.
    destruct (decide (name = "baseline")) as [->|N2].
    { rewrite lookup_insert_eq in Hr. injection Hr as <-.
      exact (int_items_is_int _ _ _ _ Ea Hd). }
    rewrite lookup_insert_ne in Hr by congruence.
    destruct (decide (name = "sync")) as [->|N3].
    { rewrite lookup_insert_eq in Hr. injection Hr as <-.
      exact (Tsy key v Hd). }
    rewrite lookup_insert_ne in Hr by congruence.
    destruct (decide (name = "iso")) as [->|N4].
    { rewrite lookup_insert_eq in Hr. injection Hr as <-.
      exact (Tiso key v Hd). }
    rewrite lookup_insert_ne in Hr by congruence.
    destruct (decide (name = "async")) as [->|N5].
    { rewrite lookup_insert_eq in Hr. injection Hr as <-.
      exact (Tasy key v Hd). }
    rewrite lookup_insert_ne in Hr by congruence.
    rewrite lookup_empty in Hr. discriminate.
  - intros name Hname.
    assert (Hfloat : forall f, is_float f = true -> exists x, f = PyFloat x).
    { intros [z|x|]; try discriminate. eauto. }
    assert (Hs := Tsy "edge_perc" fs (lookup_insert_eq _ _ _)).
    assert (Hi := Tiso "edge_perc" fi (lookup_insert_eq _ _ _)).
    assert (Ha := Tasy "edge_perc" fa (lookup_insert_eq _ _ _)).
    destruct (Hfloat fs Hs) as [xs ->].
    destruct (Hfloat fi Hi) as [xi ->].
    destruct (Hfloat fa Ha) as [xa ->].
    repeat (apply elem_of_cons in Hname; destruct Hname as [->|Hname]).
    + eexists _, xs. split; [reflexivity|]. apply lookup_insert_eq.
    + eexists _, xi. split; [reflexivity|]. apply lookup_insert_eq.
    + eexists _, xa. split; [reflexivity|]. apply lookup_insert_eq.
    + apply elem_of_nil in Hname. destruct Hname.
Qed.

End ConfigProperties.

(** A configuration with the five sections on which the loader does not
    return: [baseline] lacks [duration]. *)
Lemma load_config_no_duration :
  forallb (contains Sample.config_no_duration) required_sections = true /\
  load_config Sample.decimal_int Sample.decimal_float
    Sample.config_no_duration
  = Raise AssertionError.
Proof. split; vm_compute; reflexivity. Qed.

(** An [edge_perc] with a fraction does not get past the conversion of
    every field to [int]. *)
Example load_config_fractional_edge_perc :
  load_config Sample.decimal_int Sample.decimal_float
    (<["synchronous" := Sample.stimuli "50" "10" "2.5"]> Sample.config_ok)
  = Raise ValueError.
Proof. vm_compute. reflexivity. Qed.

Lemma load_config_well_typed_witness :
  load_config Sample.decimal_int Sample.decimal_float Sample.config_ok
  = Return Sample.loaded_ok /\
  well_typed Sample.loaded_ok /\
  forall name : string,
    name ∈ ["sync"; "iso"; "async"]%string ->
    exists (d : gmap string pyval) (x : Q),
      Sample.loaded_ok !! name = Some d /\
      d !! "edge_perc"%string = Some (PyFloat x).
Proof.
  assert (H : load_config Sample.decimal_int Sample.decimal_float
                Sample.config_ok = Return Sample.loaded_ok)
    by (vm_compute; reflexivity).
  split; [exact H|].
  exact (load_config_well_typed Sample.decimal_int Sample.decimal_float
           Sample.config_ok Sample.loaded_ok H).
Defined.

(** ** The generator on sample inputs *)

Lemma Qle_by_bool (x y : Q) : Qle_bool x y = true -> x <= y.
Proof. apply Qle_bool_iff. Qed.

Lemma Qlt_by_bool (x y : Q) : Qltb x y = true -> x < y.
Proof. apply Qltb_lt. Qed.

Lemma generate_cumulative_sum_witness :
  let seq := [0; 1; 3; 4; 100] in
  let w := Sample.world_of 0 seq 7 in
  heap w !! 0%nat = Some seq /\ (2 <= length seq)%nat /\
  0 <= 10 /\ 10 < 50 /\ retained_pool seq 10 <> [] /\
  exists (l' : loc) (w' : world nat) (out delays : list Q),
    Sample.generate 0%nat 10 w = (Return l', w') /\
    heap w' !! l' = Some out /\
    delays = fst (draws nat Sample.counter_next (retained_pool seq 10)
                    (length seq - 1) (gen w)) /\
    length delays = (length seq - 1)%nat /\
    length out = length seq /\
    out !! 0%nat = Some 0 /\
    forall k : nat, (1 <= k <= length seq - 1)%nat ->
      exists x d : Q,
        out !! (k - 1)%nat = Some x /\
        delays !! (k - 1)%nat = Some d /\
        out !! k = Some (x + d).
Proof.
  intros seq w.
  assert (H : heap w !! 0%nat = Some seq) by reflexivity.
  assert (Hn : (2 <= length seq)%nat) by (simpl; lia).
  assert (H0 : 0 <= 10) by (apply Qle_by_bool; reflexivity).
  assert (H50 : 10 < 50) by (apply Qlt_by_bool; reflexivity).
  assert (Hp : retained_pool seq 10 <> []) by (vm_compute; discriminate).
  repeat (split; [assumption|]).
  exact (generate_cumulative_sum nat Sample.counter_next true
           0%nat seq 10 w H Hn H0 H50 Hp).
Defined.

Lemma generate_empty_pool_raises_witness :
  let seq := [0; 1; 3] in
  let w := Sample.world_of 0 seq 7 in
  heap w !! 0%nat = Some seq /\ 0 <= 10 /\ 10 < 50 /\
  retained_pool seq 10 = [] /\
  exists e : exn,
    Sample.generate 0%nat 10 w = (Raise e, w) /\
    ((2 <= length seq)%nat -> e = AssertionError).
Proof.
  intros seq w.
  assert (H : heap w !! 0%nat = Some seq) by reflexivity.
  assert (H0 : 0 <= 10) by (apply Qle_by_bool; reflexivity).
  assert (H50 : 10 < 50) by (apply Qlt_by_bool; reflexivity).
  assert (Hp : retained_pool seq 10 = []) by (vm_compute; reflexivity).
  repeat (split; [assumption|]).
  exact (generate_empty_pool_raises nat Sample.counter_next true
           0%nat seq 10 w H H0 H50 Hp).
Defined.

Lemma generate_unit_steps_witness :
  let w := Sample.world_of 0 [0; 1; 2; 3; 4; 5] 7 in
  heap w !! 0%nat = Some [0; 1; 2; 3; 4; 5] /\
  returned (Sample.generate 0%nat 10 w) = Return [0; 1; 2; 3; 4; 5].
Proof.
  intros w.
  assert (H : heap w !! 0%nat = Some [0; 1; 2; 3; 4; 5]) by reflexivity.
  split; [exact H|].
  exact (generate_unit_steps nat Sample.counter_next true 0%nat w H).
Defined.

Lemma generate_deterministic_witness :
  let seq := [0; 1; 3; 4; 100] in
  let w1 := Sample.world_of 0 seq 7 in
  let w2 := World (<[ 5%nat := seq ]> {[ 0%nat := [0; 1] ]}) 7%nat in
  heap w1 !! 0%nat = Some seq /\ heap w2 !! 5%nat = Some seq /\
  gen w1 = gen w2 /\
  returned (Sample.generate 0%nat 10 w1)
  = returned (Sample.generate 5%nat 10 w2) /\
  gen (snd (Sample.generate 0%nat 10 w1))
  = gen (snd (Sample.generate 5%nat 10 w2)).
Proof.
  intros seq w1 w2.
  assert (H1 : heap w1 !! 0%nat = Some seq) by reflexivity.
  assert (H2 : heap w2 !! 5%nat = Some seq) by reflexivity.
  assert (Hg : gen w1 = gen w2) by reflexivity.
  repeat (split; [assumption|]).
  exact (generate_deterministic nat Sample.counter_next true
           0%nat 5%nat seq 10 w1 w2 H1 H2 Hg).
Defined.

(** The two rejected values named by the specification, and the accepted
    boundary. *)
Example generate_perc_minus_one :
  Sample.generate 0%nat (-1) (Sample.world_of 0 [0; 1; 2; 3] 7)
  = (Raise ValueError, Sample.world_of 0 [0; 1; 2; 3] 7).
Proof. vm_compute. reflexivity. Qed.

Example generate_perc_fifty :
  Sample.generate 0%nat 50 (Sample.world_of 0 [0; 1; 2; 3] 7)
  = (Raise ValueError, Sample.world_of 0 [0; 1; 2; 3] 7).
Proof. vm_compute. reflexivity. Qed.

Example generate_perc_zero :
  returned (Sample.generate 0%nat 0 (Sample.world_of 0 [0; 1; 3; 4; 100] 7))
  = Return [0; 96; 97; 99; 100].
Proof. vm_compute. reflexivity. Qed.

(** The percentile band of the intervals [1, 2, 1, 96] at perc = 10. *)
Example percentile_band_sample :
  Np.percentile [1; 2; 1; 96] 10 == 1 /\
  Np.percentile [1; 2; 1; 96] (100 - 10) == 67.8 /\
  retained_pool [0; 1; 3; 4; 100] 10 = [1; 2; 1].
Proof. repeat split; vm_compute; reflexivity. Qed.

(** Too short an input: no array comes back. *)
Example generate_single_timing :
  returned (Sample.generate 0%nat 10 (Sample.world_of 0 [5] 7))
  = Raise IndexError /\
  returned (generate_async_timings nat Sample.counter_next false 0%nat 10
              (Sample.world_of 0 [5] 7))
  = Raise AssertionError.
Proof. split; vm_compute; reflexivity. Qed.

(** * The generator over an arithmetic: properties *)

Section ArithProperties.

Variable A : Arith.ops.
Variable rng : Type.
Variable rng_next : rng -> nat * rng.
Variable empty_percentile_raises : bool.

Local Abbreviation num := (Arith.num A).
Local Abbreviation zero := (Arith.of_Z A 0).
Local Abbreviation fifty := (Arith.of_Z A 50).
Local Abbreviation hundred := (Arith.of_Z A 100).
Local Abbreviation run :=
  (Arith.generate_async_timings A rng rng_next empty_percentile_raises).
Local Abbreviation choose := (Arith.draws A rng rng_next).
Local Abbreviation pool := (Arith.retained_pool A).
Local Abbreviation world := (Arith.world A rng).

(** ** Arrays *)

Lemma arith_diff_length (a : list num) :
  length (Arith.diff A a) = (length a - 1)%nat.
Proof.
  induction a as [|x [|y t] IH]; simpl in *; try reflexivity.
  rewrite IH. lia.
Qed.

Lemma arith_diff_lookup (a : list num) (i : nat) (d : num) :
  Arith.diff A a !! i = Some d ->
  exists x y, a !! i = Some x /\ a !! S i = Some y /\ d = Arith.sub A y x.
Proof.
  revert i. induction a as [|x [|y t] IH]; intros i H; simpl in H;
    try discriminate.
  destruct i as [|i]; simpl in H.
  - injection H as <-. exists x, y. auto.
  - destruct (IH i H) as (x' & y' & Hx & Hy & ->).
    exists x', y'. auto.
Qed.

Lemma and_arrays_maps {T} (f g : T -> bool) (a : list T) :
  and_arrays (map f a) (map g a) = map (fun d => f d && g d) a.
Proof.
  unfold and_arrays. induction a as [|x t IH]; simpl; [reflexivity|].
  f_equal. exact IH.
Qed.

Lemma arith_take_where_from (f : num -> bool) (a pre : list num) :
  Arith.take_indices A (pre ++ a) (Np.where_from (length pre) (map f a))
  = List.filter f a.
Proof.
  revert pre. induction a as [|x t IH]; intros pre; simpl; [reflexivity|].
  assert (Hshift : Arith.take_indices A (pre ++ x :: t)
                     (Np.where_from (S (length pre)) (map f t))
                   = List.filter f t).
  { specialize (IH (pre ++ [x])).
    rewrite <- app_assoc, length_app in IH. simpl in IH.
    replace (length pre + 1)%nat with (S (length pre)) in IH by lia.
    exact IH. }
  destruct (f x); simpl; rewrite Hshift; [|reflexivity].
  f_equal. rewrite app_nth2 by lia.
  replace (length pre - length pre)%nat with 0%nat by lia. reflexivity.
Qed.

Lemma arith_pool_filter (seq : list num) (perc : num) :
  pool seq perc
  = List.filter
      (Arith.in_band A
         (Arith.band_edge A (Arith.diff A seq) perc)
         (Arith.band_edge A (Arith.diff A seq) (Arith.sub A hundred perc)))
      (Arith.diff A seq).
Proof.
  unfold Arith.retained_pool, Arith.le_scalar_array, Arith.le_array_scalar.
  rewrite and_arrays_maps. apply (arith_take_where_from _ _ []).
Qed.

Lemma arith_pool_short (seq : list num) (perc : num) :
  Arith.diff A seq = [] -> pool seq perc = [].
Proof. intros E. rewrite arith_pool_filter, E. reflexivity. Qed.

(** A retained interval is one of the differences, and the two
    comparisons of the band hold for it. *)
Lemma arith_pool_In (seq : list num) (perc d : num) :
  In d (pool seq perc) ->
  In d (Arith.diff A seq) /\
  exists lo hi : num,
    Arith.band_edge A (Arith.diff A seq) perc = Some lo /\
    Arith.band_edge A (Arith.diff A seq) (Arith.sub A hundred perc)
    = Some hi /\
    Arith.leb A lo d = true /\ Arith.leb A d hi = true.
Proof.
  rewrite arith_pool_filter, filter_In. intros [Hin Hb].
  split; [exact Hin|]. unfold Arith.in_band in Hb.
  destruct (Arith.band_edge A (Arith.diff A seq) perc) as [lo|];
    [|discriminate].
  destruct (Arith.band_edge A (Arith.diff A seq) (Arith.sub A hundred perc))
    as [hi|]; [|rewrite andb_false_r in Hb; discriminate].
  apply andb_true_iff in Hb. exists lo, hi. tauto.
Qed.

(** ** Sequencing, draws and the loop *)

Lemma arith_bind_return {T U} (c : Arith.M A rng T)
    (k : T -> Arith.M A rng U) (w w' : world) (a : T) :
  c w = (Return a, w') -> Arith.bind A rng c k w = k a w'.
Proof. intros H. unfold Arith.bind. rewrite H. reflexivity. Qed.

Lemma arith_bind_raise {T U} (c : Arith.M A rng T)
    (k : T -> Arith.M A rng U) (w w' : world) (e : exn) :
  c w = (Raise e, w') -> Arith.bind A rng c k w = (Raise e, w').
Proof. intros H. unfold Arith.bind. rewrite H. reflexivity. Qed.

Lemma arith_draw_draws (a : list num) (size : nat) (w : world) :
  Arith.draw A rng rng_next a size w
  = (Return (fst (choose a size (Arith.gen w))),
     Arith.World (Arith.heap w) (snd (choose a size (Arith.gen w)))).
Proof.
  revert w. induction size as [|size IH]; intros w.
  - destruct w; reflexivity.
  - simpl. unfold Arith.bind at 1. unfold Arith.randint.
    destruct (rng_next (Arith.gen w)) as [r g1] eqn:Er.
    unfold Arith.bind at 1. rewrite IH. simpl.
    destruct (choose a size g1) as [rest g2]. reflexivity.
Qed.

Lemma arith_choice_draws (a : list num) (size : nat) (w : world) :
  a <> [] ->
  Arith.np_random_choice A rng rng_next a size w
  = (Return (fst (choose a size (Arith.gen w))),
     Arith.World (Arith.heap w) (snd (choose a size (Arith.gen w)))).
Proof.
  intros Ha. unfold Arith.np_random_choice.
  destruct a as [|x t]; [congruence|]. apply arith_draw_draws.
Qed.

Lemma arith_draws_length (a : list num) (size : nat) (g : rng) :
  length (fst (choose a size g)) = size.
Proof.
  revert g. induction size as [|size IH]; intros g; simpl; [reflexivity|].
  destruct (rng_next g) as [r g1]. specialize (IH g1).
  destruct (choose a size g1) as [rest g2]. simpl in *. lia.
Qed.

Lemma arith_draws_In (a : list num) (size : nat) (g : rng) (d : num) :
  a <> [] -> In d (fst (choose a size g)) -> In d a.
Proof.
  intros Ha. revert g. induction size as [|size IH]; intros g; simpl.
  - intros [].
  - destruct (rng_next g) as [r g1]. specialize (IH g1).
    destruct (choose a size g1) as [rest g2]. simpl in *.
    intros [<- | Hin]; [|auto].
    apply nth_In. apply Nat.mod_upper_bound.
    destruct a; simpl; [congruence|lia].
Qed.

Lemma arith_cumsum_length (acc : num) (ds : list num) :
  length (Arith.cumsum_from A acc ds) = S (length ds).
Proof.
  revert acc. induction ds as [|d ds IH]; intros acc; simpl;
    [reflexivity|]. rewrite IH. reflexivity.
Qed.

Lemma arith_cumsum_head (acc : num) (ds : list num) :
  Arith.cumsum_from A acc ds !! 0%nat = Some acc.
Proof. destruct ds; reflexivity. Qed.

Lemma arith_cumsum_step (acc : num) (ds : list num) (k : nat) (d : num) :
  ds !! k = Some d ->
  exists x, Arith.cumsum_from A acc ds !! k = Some x /\
            Arith.cumsum_from A acc ds !! S k = Some (Arith.add A x d).
Proof.
  revert acc k. induction ds as [|d0 ds IH]; intros acc k H;
    [discriminate|].
  destruct k as [|k]; simpl in *.
  - injection H as ->. exists acc. split; [reflexivity|].
    apply arith_cumsum_head.
  - exact (IH (Arith.add A acc d0) k H).
Qed.

(** Two neighbours of the running sums are a sum and the delay added to
    it. *)
Lemma arith_cumsum_gap (acc : num) (ds : list num) (i : nat) (x y : num) :
  Arith.cumsum_from A acc ds !! i = Some x ->
  Arith.cumsum_from A acc ds !! S i = Some y ->
  exists d, ds !! i = Some d /\ y = Arith.add A x d.
Proof.
  intros Hx Hy.
  assert (Hlt : (i < length ds)%nat).
  { apply lookup_lt_Some in Hy. rewrite arith_cumsum_length in Hy. lia. }
  destruct (lookup_lt_is_Some_2 ds i Hlt) as [d Hd].
  destruct (arith_cumsum_step acc ds i d Hd) as (x' & Hx' & Hy').
  exists d. split; [exact Hd|]. congruence.
Qed.

Lemma arith_loop_body_step (t : loc) (pre rest : list num) (x z d : num)
    (h : gmap loc (list num)) (g : rng) :
  h !! t = Some (pre ++ x :: z :: rest) ->
  Arith.loop_body A rng t (length pre) d (Arith.World h g)
  = (Return tt,
     Arith.World (<[t := (pre ++ [x]) ++ Arith.add A x d :: rest]> h) g).
Proof.
  intros Ht. unfold Arith.loop_body, Arith.bind, Arith.getitem, Arith.setitem.
  simpl. rewrite Ht. rewrite list_lookup_middle by reflexivity.
  simpl. rewrite Ht.
  destruct (decide (length pre + 1 < length (pre ++ x :: z :: rest))%nat)
    as [_|Hn].
  - do 3 f_equal.
    replace (pre ++ x :: z :: rest) with ((pre ++ [x]) ++ z :: rest)
      by (rewrite <- app_assoc; reflexivity).
    replace (length pre + 1)%nat with (length (pre ++ [x]) + 0)%nat
      by (rewrite length_app; simpl; lia).
    rewrite insert_app_r. reflexivity.
  - exfalso. apply Hn. rewrite length_app. simpl. lia.
Qed.

Lemma arith_loop_spec (t : loc) (ds pre : list num) (x : num)
    (h : gmap loc (list num)) (g : rng) :
  h !! t = Some (pre ++ x :: Arith.zeros A (length ds)) ->
  Arith.for_enumerate A rng (length pre) ds (Arith.loop_body A rng t)
    (Arith.World h g)
  = (Return tt,
     Arith.World (<[t := pre ++ Arith.cumsum_from A x ds]> h) g).
Proof.
  revert pre x h. induction ds as [|d ds IH]; intros pre x h Ht.
  - simpl. unfold Arith.ret. rewrite insert_id by exact Ht. reflexivity.
  - unfold Arith.zeros in *. simpl in *.
    rewrite (arith_bind_return _ _ _ _ _
               (arith_loop_body_step t pre _ x zero d h g Ht)).
    replace (S (length pre)) with (length (pre ++ [x]))
      by (rewrite length_app; simpl; lia).
    rewrite (IH (pre ++ [x]) (Arith.add A x d)) by apply lookup_insert_eq.
    rewrite insert_insert_eq, <- app_assoc. reflexivity.
Qed.

(** ** The outcome of a call *)

Lemma arith_check_sequence_some (l : loc) (seq : list num) (w : world) :
  Arith.heap w !! l = Some seq ->
  Arith.check_sequence A rng l w = (Return seq, w).
Proof. intros H. unfold Arith.check_sequence. rewrite H. reflexivity. Qed.

Lemma arith_np_percentile_value (a : list num) (perc : num) (w : world) :
  Arith.quantile_is_valid A perc = true -> a <> [] ->
  Arith.np_percentile A rng empty_percentile_raises a perc w
  = (Return (Arith.band_edge A a perc), w).
Proof.
  intros Hv Ha. unfold Arith.np_percentile. rewrite Hv.
  destruct a; [congruence|reflexivity].
Qed.

Lemma arith_np_percentile_raises (a : list num) (perc : num) (w : world) :
  Arith.quantile_is_valid A perc = false \/ a = [] ->
  (exists e, Arith.np_percentile A rng empty_percentile_raises a perc w
             = (Raise e, w)) \/
  (a = [] /\
   Arith.np_percentile A rng empty_percentile_raises a perc w
   = (Return None, w)).
Proof.
  intros H. unfold Arith.np_percentile.
  destruct (Arith.quantile_is_valid A perc); simpl.
  - destruct H as [H | ->]; [discriminate|].
    destruct empty_percentile_raises; [left; eauto | right; auto].
  - left. eauto.
Qed.

(** The array of a returning call. *)
Lemma arith_generate_success (l : loc) (seq : list num) (perc : num)
    (w : world) :
  Arith.heap w !! l = Some seq ->
  Arith.ltb A perc zero || Arith.leb A fifty perc = false ->
  Arith.quantile_is_valid A perc = true ->
  Arith.quantile_is_valid A (Arith.sub A hundred perc) = true ->
  pool seq perc <> [] ->
  run l perc w
  = (Return (fresh (dom (Arith.heap w))),
     Arith.World
       (<[fresh (dom (Arith.heap w))
          := Arith.synthetic A rng rng_next seq perc (Arith.gen w)]>
          (Arith.heap w))
       (snd (choose (pool seq perc) (length seq - 1) (Arith.gen w)))).
Proof.
  intros H Hr Hv1 Hv2 Hp.
  assert (Hd : Arith.diff A seq <> []).
  { intros E. apply Hp. apply arith_pool_short. exact E. }
  assert (Hn : (length seq - 1 <> 0)%nat).
  { rewrite <- arith_diff_length.
    destruct (Arith.diff A seq); simpl; congruence. }
  unfold Arith.generate_async_timings.
  rewrite (arith_bind_return _ _ _ _ _ (arith_check_sequence_some l seq w H)).
  rewrite Hr. cbv zeta.
  rewrite (arith_bind_return _ _ _ _ _
             (arith_np_percentile_value _ perc w Hv1 Hd)).
  rewrite (arith_bind_return _ _ _ _ _
             (arith_np_percentile_value _ _ w Hv2 Hd)).
  fold (Arith.retained_pool A seq perc).
  destruct (length (pool seq perc) =? 0)%nat eqn:El.
  { apply Nat.eqb_eq in El. destruct (pool seq perc);
      [congruence|discriminate]. }
  rewrite (arith_bind_return _ _ _ _ _
             (arith_choice_draws _ (length seq - 1) w Hp)).
  set (ds := fst (choose (pool seq perc) (length seq - 1) (Arith.gen w))).
  set (g' := snd (choose (pool seq perc) (length seq - 1) (Arith.gen w))).
  set (t := fresh (dom (Arith.heap w))).
  unfold Arith.bind at 1. unfold Arith.np_zeros at 1.
  cbn [Arith.heap Arith.gen]. fold t.
  assert (Hz : Arith.zeros A (length seq)
               = [] ++ zero :: Arith.zeros A (length ds)).
  { unfold ds. rewrite arith_draws_length. unfold Arith.zeros.
    destruct (length seq) as [|m]; [lia|]. simpl.
    rewrite Nat.sub_0_r. reflexivity. }
  pose proof (arith_loop_spec t ds [] zero
                (<[t := Arith.zeros A (length seq)]> (Arith.heap w)) g')
    as Hloop.
  rewrite lookup_insert_eq in Hloop. specialize (Hloop (f_equal Some Hz)).
  simpl in Hloop. unfold Arith.loop_body in Hloop.
  rewrite (arith_bind_return _ _ _ _ _ Hloop).
  unfold Arith.ret. rewrite insert_insert_eq. reflexivity.
Qed.

(** A call either raises and leaves the world as it was, or passes
    every test and returns the array of [arith_generate_success]. *)
Lemma arith_generate_cases (l : loc) (perc : num) (w : world) :
  (exists e, run l perc w = (Raise e, w)) \/
  (exists seq,
     Arith.heap w !! l = Some seq /\
     Arith.ltb A perc zero || Arith.leb A fifty perc = false /\
     Arith.quantile_is_valid A perc = true /\
     Arith.quantile_is_valid A (Arith.sub A hundred perc) = true /\
     pool seq perc <> [] /\
     run l perc w
     = (Return (fresh (dom (Arith.heap w))),
        Arith.World
          (<[fresh (dom (Arith.heap w))
             := Arith.synthetic A rng rng_next seq perc (Arith.gen w)]>
             (Arith.heap w))
          (snd (choose (pool seq perc) (length seq - 1) (Arith.gen w))))).
Proof.
  destruct (Arith.heap w !! l) as [seq|] eqn:H.
  2:{ left. exists TypeError. unfold Arith.generate_async_timings.
      apply arith_bind_raise. unfold Arith.check_sequence.
      rewrite H. reflexivity. }
  destruct (Arith.ltb A perc zero || Arith.leb A fifty perc) eqn:Hr.
  { left. exists ValueError. unfold Arith.generate_async_timings.
    rewrite (arith_bind_return _ _ _ _ _
               (arith_check_sequence_some l seq w H)).
    rewrite Hr. reflexivity. }
  destruct (Arith.quantile_is_valid A perc) eqn:Hv1.
  2:{ left. exists ValueError. unfold Arith.generate_async_timings.
      rewrite (arith_bind_return _ _ _ _ _
                 (arith_check_sequence_some l seq w H)).
      rewrite Hr. cbv zeta. apply arith_bind_raise.
      unfold Arith.np_percentile. rewrite Hv1. reflexivity. }
  destruct (Arith.quantile_is_valid A (Arith.sub A hundred perc)) eqn:Hv2.
  2:{ left. unfold Arith.generate_async_timings.
      rewrite (arith_bind_return _ _ _ _ _
                 (arith_check_sequence_some l seq w H)).
      rewrite Hr. cbv zeta.
      unfold Arith.bind at 1. unfold Arith.np_percentile at 1.
      rewrite Hv1. cbn [negb].
      destruct (Arith.diff A seq) as [|d t].
      - destruct empty_percentile_raises; [eexists; reflexivity|].
        cbn [Arith.ret]. exists ValueError. apply arith_bind_raise.
        unfold Arith.np_percentile. rewrite Hv2. reflexivity.
      - cbn [Arith.ret]. exists ValueError. apply arith_bind_raise.
        unfold Arith.np_percentile. rewrite Hv2. reflexivity. }
  destruct (pool seq perc) as [|d0 p] eqn:Hp.
  - left. unfold Arith.generate_async_timings.
    rewrite (arith_bind_return _ _ _ _ _
               (arith_check_sequence_some l seq w H)).
    rewrite Hr. cbv zeta.
    destruct (Arith.diff A seq) as [|d t] eqn:Hd.
    + unfold Arith.bind at 1. unfold Arith.np_percentile at 1.
      rewrite Hv1. cbn [negb].
      destruct empty_percentile_raises; [eexists; reflexivity|].
      cbn [Arith.ret]. unfold Arith.bind at 1.
      unfold Arith.np_percentile at 1. rewrite Hv2. cbn [negb Arith.ret].
      eexists. reflexivity.
    + assert (Hne : d :: t <> []) by discriminate.
      rewrite (arith_bind_return _ _ _ _ _
                 (arith_np_percentile_value _ perc w Hv1 Hne)).
      rewrite (arith_bind_return _ _ _ _ _
                 (arith_np_percentile_value _ _ w Hv2 Hne)).
      rewrite <- Hd. fold (Arith.retained_pool A seq perc).
      rewrite Hp. eexists. reflexivity.
  - right. exists seq.
    assert (Hne : pool seq perc <> []) by (rewrite Hp; discriminate).
    repeat split; try assumption; try reflexivity.
    apply arith_generate_success; assumption.
Qed.

Lemma arith_generate_return_inv (l l' : loc) (seq : list num) (perc : num)
    (w w' : world) :
  Arith.heap w !! l = Some seq -> run l perc w = (Return l', w') ->
  pool seq perc <> [] /\
  Arith.heap w' !! l'
  = Some (Arith.synthetic A rng rng_next seq perc (Arith.gen w)).
Proof.
  intros H Hg.
  destruct (arith_generate_cases l perc w)
    as [[e He] | (seq' & H' & _ & _ & _ & Hp & Hs)].
  - rewrite He in Hg. discriminate.
  - rewrite H in H'. injection H' as <-.
    rewrite Hs in Hg. injection Hg as <- <-.
    split; [exact Hp|]. cbn [Arith.heap]. apply lookup_insert_eq.
Qed.

(** A gap of the returned array is a drawn delay, hence a retained
    interval. *)
Lemma arith_synthetic_gap (seq : list num) (perc : num) (g : rng)
    (i : nat) (x y : num) :
  pool seq perc <> [] ->
  Arith.synthetic A rng rng_next seq perc g !! i = Some x ->
  Arith.synthetic A rng rng_next seq perc g !! S i = Some y ->
  exists d, In d (pool seq perc) /\ y = Arith.add A x d.
Proof.
  intros Hp Hx Hy. unfold Arith.synthetic in *.
  destruct (arith_cumsum_gap _ _ _ _ _ Hx Hy) as (d & Hd & ->).
  exists d. split; [|reflexivity].
  apply (arith_draws_In _ (length seq - 1) g d Hp).
  apply list_elem_of_In. apply list_elem_of_lookup. eauto.
Qed.

(** ** Gaps and order of the returned array *)

Lemma arith_increasingb_sound (a : list num) :
  Arith.increasingb A a = true -> Arith.strictly_increasing A a.
Proof.
  induction a as [|x [|y t] IH]; intros H i u v Hu Hv.
  - destruct i; discriminate.
  - destruct i; discriminate.
  - simpl in H. apply andb_prop in H. destruct H as [Hxy Ht].
    destruct i as [|i]; simpl in Hu, Hv.
    + injection Hu as <-. injection Hv as <-. exact Hxy.
    + exact (IH Ht i u v Hu Hv).
Qed.

Lemma arith_non_decreasingb_sound (a : list num) :
  Arith.non_decreasingb A a = true -> Arith.non_decreasing A a.
Proof.
  induction a as [|x [|y t] IH]; intros H i u v Hu Hv.
  - destruct i; discriminate.
  - destruct i; discriminate.
  - simpl in H. apply andb_prop in H. destruct H as [Hxy Ht].
    destruct i as [|i]; simpl in Hu, Hv.
    + injection Hu as <-. injection Hv as <-. exact Hxy.
    + exact (IH Ht i u v Hu Hv).
Qed.

(** C8, amended: in the array of a returning call every element after
    the first is the element before it plus a delay (the sum being the
    arithmetic's own, rounded in float64), and that delay is one of the
    input's intervals for which both comparisons of the band hold:
    percentile(diff, perc) <= delay <= percentile(diff, 100 - perc).  No
    value outside the band, and none that is not an interval of the
    input, is ever added. *)
Theorem generate_adds_retained_interval (l l' : loc) (seq out : list num)
    (perc : num) (w w' : world) :
  Arith.heap w !! l = Some seq ->
  run l perc w = (Return l', w') -> Arith.heap w' !! l' = Some out ->
  forall (k : nat) (x y : num),
    out !! k = Some x -> out !! S k = Some y ->
    exists d : num,
      y = Arith.add A x d /\
      In d (Arith.diff A seq) /\
      exists lo hi : num,
        Arith.band_edge A (Arith.diff A seq) perc = Some lo /\
        Arith.band_edge A (Arith.diff A seq) (Arith.sub A hundred perc)
        = Some hi /\
        Arith.leb A lo d = true /\ Arith.leb A d hi = true.
Proof.
  intros H Hg Hout k x y Hx Hy.
  destruct (arith_generate_return_inv l l' seq perc w w' H Hg) as (Hp & Hs).
  rewrite Hs in Hout. injection Hout as <-.
  destruct (arith_synthetic_gap seq perc (Arith.gen w) k x y Hp Hx Hy)
    as (d & Hd & ->).
  exists d. split; [reflexivity|]. apply arith_pool_In. exact Hd.
Qed.

Lemma arith_diff_positive (seq : list num) (d : num) :
  Arith.rounding_laws A -> Arith.strictly_increasing A seq ->
  In d (Arith.diff A seq) -> Arith.ltb A zero d = true.
Proof.
  intros R Hinc Hin.
  apply list_elem_of_In, list_elem_of_lookup in Hin. destruct Hin as [i Hi].
  destruct (arith_diff_lookup seq i d Hi) as (x & y & Hx & Hy & ->).
  apply (Arith.sub_pos A R). exact (Hinc i x y Hx Hy).
Qed.

(** Running sums of non-negative delays, started at a non-negative
    number, never go back. *)
Lemma arith_cumsum_non_decreasing (acc : num) (ds : list num) :
  Arith.order_laws A -> Arith.rounding_laws A ->
  Arith.leb A zero acc = true ->
  (forall d, In d ds -> Arith.leb A zero d = true) ->
  Arith.non_decreasing A (Arith.cumsum_from A acc ds).
Proof.
  intros L R. revert acc.
  induction ds as [|d ds IH]; intros acc Hacc Hd i x y Hx Hy.
  - destruct i; discriminate.
  - assert (Hd0 : Arith.leb A zero d = true) by (apply Hd; left; reflexivity).
    assert (Hstep : Arith.leb A acc (Arith.add A acc d) = true)
      by (apply (Arith.add_nonneg A R); assumption).
    destruct i as [|i]; simpl in Hx, Hy.
    + injection Hx as <-. rewrite arith_cumsum_head in Hy.
      injection Hy as <-. exact Hstep.
    + apply (IH (Arith.add A acc d)) with (i := i); try assumption.
      * exact (Arith.leb_trans A L _ _ _ Hacc Hstep).
      * intros e He. apply Hd. right. exact He.
Qed.


(** ** Percentiles 0 and 100 of finite intervals *)

Local Abbreviation le := (fun x y : num => Arith.leb A x y = true).

Lemma arith_insert_sorted_perm (x : num) (l : list num) :
  Permutation (Arith.insert_sorted A x l) (x :: l).
Proof.
  induction l as [|y t IH]; simpl; [reflexivity|].
  destruct (Arith.before A x y); [reflexivity|].
  rewrite IH. apply perm_swap.
Qed.

Lemma arith_sort_perm (l : list num) : Permutation (Arith.sort A l) l.
Proof.
  induction l as [|x t IH]; simpl; [reflexivity|].
  rewrite arith_insert_sorted_perm, IH. reflexivity.
Qed.

Lemma arith_sort_length (l : list num) :
  length (Arith.sort A l) = length l.
Proof. apply Permutation_length, arith_sort_perm. Qed.

Lemma arith_sort_In (l : list num) (x : num) :
  In x (Arith.sort A l) <-> In x l.
Proof.
  split; apply Permutation_in;
    [apply arith_sort_perm | symmetry; apply arith_sort_perm].
Qed.

Lemma arith_eqvb_elim (x y : num) :
  Arith.eqvb A x y = true ->
  Arith.leb A x y = true /\ Arith.leb A y x = true.
Proof. unfold Arith.eqvb. apply andb_prop. Qed.

Lemma forallb_In {T} (f : T -> bool) (l : list T) (x : T) :
  forallb f l = true -> In x l -> f x = true.
Proof. intros H. apply (proj1 (forallb_forall f l) H). Qed.

Lemma filter_all {T} (f : T -> bool) (l : list T) :
  (forall x, In x l -> f x = true) -> List.filter f l = l.
Proof.
  induction l as [|x t IH]; intros H; simpl; [reflexivity|].
  rewrite (H x) by (left; reflexivity). f_equal.
  apply IH. intros y Hy. apply H. right. exact Hy.
Qed.

Section FiniteData.

Hypothesis L : Arith.order_laws A.
Hypothesis Z : Arith.zero_laws A.

Lemma arith_finite_refl (x : num) :
  Arith.finiteb A x = true -> Arith.leb A x x = true.
Proof.
  intros H. pose proof (Arith.leb_total A Z x x H H) as Ht.
  destruct (Arith.leb A x x); [reflexivity | discriminate].
Qed.

Lemma arith_insert_sorted_sorted (x : num) (l : list num) :
  Arith.finiteb A x = true ->
  (forall y, In y l -> Arith.finiteb A y = true) ->
  StronglySorted le l -> StronglySorted le (Arith.insert_sorted A x l).
Proof.
  intros Hx Hl Hs. induction Hs as [|y t Hs IH Hy]; simpl.
  - constructor; [constructor | constructor].
  - assert (Hfy : Arith.finiteb A y = true) by (apply Hl; left; reflexivity).
    unfold Arith.before.
    rewrite (Arith.finite_not_nan A Z y Hfy), orb_false_r.
    destruct (Arith.leb A x y) eqn:E.
    + constructor; [constructor; assumption|].
      constructor; [exact E|].
      eapply List.Forall_impl; [|exact Hy].
      intros z Hz. exact (Arith.leb_trans A L _ _ _ E Hz).
    + assert (Hyx : Arith.leb A y x = true).
      { pose proof (Arith.leb_total A Z x y Hx Hfy) as Ht.
        rewrite E in Ht. exact Ht. }
      constructor.
      * apply IH. intros z Hz. apply Hl. right. exact Hz.
      * apply List.Forall_forall. intros z Hz.
        apply (Permutation_in _ (arith_insert_sorted_perm x t)) in Hz.
        destruct Hz as [<- | Hz]; [exact Hyx|].
        exact (proj1 (List.Forall_forall _ _) Hy z Hz).
Qed.

Lemma arith_sort_sorted (l : list num) :
  (forall y, In y l -> Arith.finiteb A y = true) ->
  StronglySorted le (Arith.sort A l).
Proof.
  induction l as [|x t IH]; intros Hl; simpl; [constructor|].
  apply arith_insert_sorted_sorted.
  - apply Hl. left. reflexivity.
  - intros y Hy. apply Hl. right. apply arith_sort_In. exact Hy.
  - apply IH. intros y Hy. apply Hl. right. exact Hy.
Qed.

(** The first value of a sorted array is at most every value, and every
    value is at most the last one. *)
Lemma arith_sorted_first (s : list num) (d : num) :
  (forall y, In y s -> Arith.finiteb A y = true) ->
  StronglySorted le s -> In d s -> Arith.leb A (nth 0 s zero) d = true.
Proof.
  intros Hf Hs Hd. destruct Hs as [|x t Hs Hx]; [destruct Hd|]. simpl.
  destruct Hd as [<- | Hd].
  - apply arith_finite_refl. apply Hf. left. reflexivity.
  - exact (proj1 (List.Forall_forall _ _) Hx d Hd).
Qed.

Lemma arith_sorted_last (s : list num) (d : num) :
  (forall y, In y s -> Arith.finiteb A y = true) ->
  StronglySorted le s -> In d s ->
  Arith.leb A d (nth (length s - 1) s zero) = true.
Proof.
  intros Hf Hs. revert d. induction Hs as [|x t Hs IH Hx]; intros d Hd;
    [destruct Hd|].
  destruct t as [|y t'].
  - destruct Hd as [<- | []]. simpl.
    apply arith_finite_refl. apply Hf. left. reflexivity.
  - assert (Hlast : nth (length (x :: y :: t') - 1) (x :: y :: t') zero
                    = nth (length (y :: t') - 1) (y :: t') zero).
    { simpl. rewrite Nat.sub_0_r. reflexivity. }
    rewrite Hlast.
    assert (Hf' : forall z, In z (y :: t') -> Arith.finiteb A z = true).
    { intros z Hz. apply Hf. right. exact Hz. }
    destruct Hd as [<- | Hd]; [|exact (IH Hf' d Hd)].
    apply (proj1 (List.Forall_forall _ _) Hx).
    apply nth_In. simpl. lia.
Qed.

(** Interpolation between a value and itself, and interpolation with
    weight zero. *)
Lemma arith_lerp_same (a t : num) :
  Arith.finiteb A a = true -> Arith.finiteb A t = true ->
  Arith.finiteb A (Arith.sub A (Arith.of_Z A 1) t) = true ->
  Arith.eqvb A (Arith.lerp A a a t) a = true.
Proof.
  intros Ha Ht Ht'. unfold Arith.lerp.
  destruct (Arith.leb A (Arith.half A) t).
  - apply (Arith.sub_zero A Z); [exact Ha|].
    apply (Arith.mul_zero_l A Z); [exact Ha | exact Ht'].
  - apply (Arith.add_zero A Z); [exact Ha|].
    apply (Arith.mul_zero_l A Z); [exact Ha | exact Ht].
Qed.

Lemma arith_lerp_zero (a b t : num) :
  Arith.finiteb A a = true ->
  Arith.finiteb A (Arith.sub A b a) = true ->
  Arith.eqvb A t zero = true ->
  Arith.leb A (Arith.half A) t = false ->
  Arith.eqvb A (Arith.lerp A a b t) a = true.
Proof.
  intros Ha Hd Ht Hh. unfold Arith.lerp. rewrite Hh.
  apply (Arith.add_zero A Z); [exact Ha|].
  apply (Arith.mul_zero_r A Z); [exact Hd | exact Ht].
Qed.

Lemma arith_tame_finite (a : list num) (x : num) :
  Arith.tame A a = true -> In x a -> Arith.finiteb A x = true.
Proof.
  unfold Arith.tame. intros H Hx. apply andb_prop in H.
  exact (forallb_In _ _ _ (proj1 H) Hx).
Qed.

Lemma arith_tame_sub (a : list num) (x y : num) :
  Arith.tame A a = true -> In x a -> In y a ->
  Arith.finiteb A (Arith.sub A y x) = true.
Proof.
  unfold Arith.tame. intros H Hx Hy. apply andb_prop in H.
  pose proof (forallb_In _ _ _ (proj2 H) Hx) as H1. simpl in H1.
  exact (forallb_In _ _ _ H1 Hy).
Qed.

(** With finite intervals, the percentiles 0 and 100 are (numerically)
    the smallest and the largest interval. *)
Lemma arith_quantile_extremes (a : list num) :
  a <> [] -> Arith.tame A a = true ->
  Arith.extremes_selected A (Z.of_nat (length a - 1)) = true ->
  exists lo hi : num,
    Arith.quantile A a (Arith.div A zero hundred) = Some lo /\
    Arith.quantile A a (Arith.div A (Arith.sub A hundred zero) hundred)
    = Some hi /\
    Arith.eqvb A lo (nth 0 (Arith.sort A a) zero) = true /\
    Arith.eqvb A hi (nth (length a - 1) (Arith.sort A a) zero) = true.
Proof.
  intros Ha Ht He.
  assert (Hlen : (0 < length a)%nat) by (destruct a; simpl; [congruence|lia]).
  assert (Hin : forall i, (i < length a)%nat ->
                  In (nth i (Arith.sort A a) zero) a).
  { intros i Hi. apply arith_sort_In. apply nth_In.
    rewrite arith_sort_length. exact Hi. }
  assert (Hfin : forall i, (i < length a)%nat ->
                   Arith.finiteb A (nth i (Arith.sort A a) zero) = true).
  { intros i Hi. apply (arith_tame_finite a); [exact Ht | exact (Hin i Hi)]. }
  assert (Hnan : Arith.is_nan A (nth (length a - 1) (Arith.sort A a) zero)
                 = false).
  { apply (Arith.finite_not_nan A Z). apply Hfin. lia. }
  unfold Arith.extremes_selected in He.
  apply andb_prop in He. destruct He as [He Hhi].
  apply andb_prop in He. destruct He as [_ Hlo].
  unfold Arith.quantile. rewrite Hnan.
  destruct (Arith.percentile_ranks A (Z.of_nat (length a - 1))
              (Arith.div A zero hundred)) as [[p0 x0] g0].
  destruct (Arith.percentile_ranks A (Z.of_nat (length a - 1))
              (Arith.div A (Arith.sub A hundred zero) hundred))
    as [[p1 x1] g1].
  apply andb_prop in Hlo. destruct Hlo as [Hlo Hg0].
  apply andb_prop in Hlo. destruct Hlo as [Hlo Hx0'].
  apply andb_prop in Hlo. destruct Hlo as [Hp0 Hx0].
  apply Z.eqb_eq in Hp0. apply Z.leb_le in Hx0, Hx0'. subst p0.
  apply andb_prop in Hhi. destruct Hhi as [Hhi Hg1'].
  apply andb_prop in Hhi. destruct Hhi as [Hhi Hg1].
  apply andb_prop in Hhi. destruct Hhi as [Hp1 Hx1].
  apply Z.eqb_eq in Hp1. apply Z.eqb_eq in Hx1. subst p1 x1.
  rewrite Nat2Z.id. change (Z.to_nat 0) with 0%nat.
  eexists. eexists. split; [reflexivity|]. split; [reflexivity|]. split.
  - destruct (x0 =? 0)%Z eqn:E0.
    + apply Z.eqb_eq in E0. subst x0. change (Z.to_nat 0) with 0%nat.
      apply andb_prop in Hg0. destruct Hg0 as [Hg0 Hg0'].
      apply arith_lerp_same; [apply Hfin; exact Hlen | exact Hg0 | exact Hg0'].
    + apply andb_prop in Hg0. destruct Hg0 as [Hg0 Hh].
      apply negb_true_iff in Hh.
      apply arith_lerp_zero; [apply Hfin; exact Hlen | | exact Hg0 | exact Hh].
      apply (arith_tame_sub a); [exact Ht | apply Hin; exact Hlen |
                                 apply Hin; lia].
  - apply arith_lerp_same; [apply Hfin; lia | exact Hg1 | exact Hg1'].
Qed.

(** With [perc = 0] the band retains every finite interval. *)
Lemma arith_pool_zero (seq : list num) :
  Arith.diff A seq <> [] -> Arith.tame A (Arith.diff A seq) = true ->
  Arith.extremes_selected A (Z.of_nat (length (Arith.diff A seq) - 1))
  = true ->
  pool seq zero = Arith.diff A seq.
Proof.
  intros Hd Ht He. rewrite arith_pool_filter.
  destruct (arith_quantile_extremes _ Hd Ht He)
    as (lo & hi & Hlo & Hhi & Elo & Ehi).
  assert (Hf : forall y, In y (Arith.sort A (Arith.diff A seq)) ->
                 Arith.finiteb A y = true).
  { intros y Hy. apply (arith_tame_finite (Arith.diff A seq)); [exact Ht|].
    apply arith_sort_In. exact Hy. }
  assert (Hs : StronglySorted le (Arith.sort A (Arith.diff A seq))).
  { apply arith_sort_sorted. intros y Hy.
    exact (arith_tame_finite _ y Ht Hy). }
  apply filter_all. intros d Hin. unfold Arith.band_edge.
  destruct (Arith.diff A seq) as [|d0 t] eqn:E; [congruence|].
  rewrite Hlo, Hhi. unfold Arith.in_band.
  apply arith_eqvb_elim in Elo. apply arith_eqvb_elim in Ehi.
  apply andb_true_intro. split.
  - apply (Arith.leb_trans A L _ _ _ (proj1 Elo)).
    apply arith_sorted_first; [exact Hf | exact Hs |].
    apply arith_sort_In. exact Hin.
  - refine (Arith.leb_trans A L _ _ _ _ (proj2 Ehi)).
    rewrite <- (arith_sort_length (d0 :: t)).
    apply arith_sorted_last; [exact Hf | exact Hs |].
    apply arith_sort_In. exact Hin.
Qed.

(** The call with [perc = 0] on finite intervals: every interval is
    retained and the delays are drawn from the array of differences. *)
Lemma arith_perc_zero_keeps_all (l : loc) (seq : list num) (w : world) :
  Arith.heap w !! l = Some seq -> (2 <= length seq)%nat ->
  Arith.tame A (Arith.diff A seq) = true ->
  Arith.extremes_selected A (Z.of_nat (length seq - 2)) = true ->
  pool seq zero = Arith.diff A seq /\
  Arith.returned (run l zero w)
  = Return (Arith.cumsum_from A zero
              (fst (choose (Arith.diff A seq) (length seq - 1)
                      (Arith.gen w)))).
Proof.
  intros H Hn Ht He.
  assert (Hd : Arith.diff A seq <> []).
  { intros E. pose proof (arith_diff_length seq) as Hl.
    rewrite E in Hl. simpl in Hl. lia. }
  replace (length seq - 2)%nat with (length (Arith.diff A seq) - 1)%nat in He
    by (rewrite arith_diff_length; lia).
  pose proof (arith_pool_zero seq Hd Ht He) as Hp.
  split; [exact Hp|].
  unfold Arith.extremes_selected in He.
  apply andb_prop in He. destruct He as [He _].
  apply andb_prop in He. destruct He as [He _].
  apply andb_prop in He. destruct He as [He Hv2].
  apply andb_prop in He. destruct He as [Hr Hv1].
  apply negb_true_iff in Hr.
  rewrite (arith_generate_success l seq zero w H Hr Hv1 Hv2).
  - unfold Arith.returned. cbn [Arith.heap]. rewrite lookup_insert_eq.
    unfold Arith.synthetic. rewrite Hp. reflexivity.
  - rewrite Hp. exact Hd.
Qed.

End FiniteData.
End ArithProperties.

(** ** The laws in IEEE binary64

    The comparisons and the operations on a zero operand are read off
    the specification of the primitive floats. *)

Lemma SFcompare_refl (x : spec_float) :
  SFfinite x = true -> SFcompare x x = Some Eq.
Proof.
  destruct x as [s|s| |s m e]; try discriminate; intros _; simpl;
    [reflexivity|].
  rewrite Z.compare_refl.
  change (Pos.compare_cont Eq m m) with (Pos.compare m m).
  rewrite Pos.compare_refl. destruct s; reflexivity.
Qed.

Ltac compare_cases :=
  repeat match goal with
  | |- context [Z.compare ?a ?b] =>
      destruct (Z.compare_spec a b); try subst
  | H : context [Z.compare ?a ?b] |- _ =>
      destruct (Z.compare_spec a b); try subst
  | |- context [Pos.compare_cont Eq ?a ?b] =>
      change (Pos.compare_cont Eq a b) with (Pos.compare a b);
      destruct (Pos.compare_spec a b); try subst
  | H : context [Pos.compare_cont Eq ?a ?b] |- _ =>
      change (Pos.compare_cont Eq a b) with (Pos.compare a b) in H;
      destruct (Pos.compare_spec a b); try subst
  end;
  simpl in *; try reflexivity; try discriminate; try lia.

Lemma SFleb_trans (x y z : spec_float) :
  SFleb x y = true -> SFleb y z = true -> SFleb x z = true.
Proof.
  unfold SFleb, SFcompare.
  destruct x as [sx|sx| |sx mx ex]; destruct y as [sy|sy| |sy my ey];
    destruct z as [sz|sz| |sz mz ez];
    repeat match goal with s : bool |- _ => destruct s end;
    simpl; intros Hxy Hyz; try reflexivity; try discriminate;
    compare_cases.
Qed.

Lemma SFleb_total (x y : spec_float) :
  SFfinite x = true -> SFfinite y = true ->
  SFleb x y || SFleb y x = true.
Proof.
  unfold SFleb, SFcompare.
  destruct x as [sx|sx| |sx mx ex]; destruct y as [sy|sy| |sy my ey];
    repeat match goal with s : bool |- _ => destruct s end;
    simpl; intros Hx Hy; try reflexivity; try discriminate;
    compare_cases.
Qed.

Lemma SFltb_leb (x y : spec_float) : SFltb x y = true -> SFleb x y = true.
Proof.
  unfold SFltb, SFleb. destruct (SFcompare x y) as [[| |]|];
    intros H; try reflexivity; discriminate.
Qed.

Lemma Prim2SF_zero : Prim2SF (Arith.f_of_Z 0) = S754_zero false.
Proof. reflexivity. Qed.

Lemma float64_eqvb (x y : float) :
  Arith.eqvb Arith.float64 x y
  = SFleb (Prim2SF x) (Prim2SF y) && SFleb (Prim2SF y) (Prim2SF x).
Proof. unfold Arith.eqvb. simpl. rewrite !FloatAxioms.leb_spec. reflexivity. Qed.

Lemma float64_finiteb_SF (x : float) :
  Arith.finiteb Arith.float64 x = true -> SFfinite (Prim2SF x) = true.
Proof.
  unfold Arith.finiteb. rewrite float64_eqvb. simpl Arith.sub.
  rewrite FloatAxioms.sub_spec. unfold SF64sub.
  destruct (Prim2SF x) as [s|s| |s m e]; try reflexivity.
  - destruct s; simpl; discriminate.
  - simpl. discriminate.
Qed.

Lemma float64_eqvb_zero_SF (z : float) :
  Arith.eqvb Arith.float64 z (Arith.of_Z Arith.float64 0) = true ->
  exists s, Prim2SF z = S754_zero s.
Proof.
  rewrite float64_eqvb. simpl Arith.of_Z. rewrite Prim2SF_zero.
  destruct (Prim2SF z) as [s|s| |s m e]; try (destruct s; discriminate);
    try discriminate.
  intros _. exists s. reflexivity.
Qed.

Lemma float64_eqvb_zeros (x y : float) (s s' : bool) :
  Prim2SF x = S754_zero s -> Prim2SF y = S754_zero s' ->
  Arith.eqvb Arith.float64 x y = true.
Proof. intros Hx Hy. rewrite float64_eqvb, Hx, Hy. reflexivity. Qed.

Lemma float64_eqvb_same (x y : float) :
  Prim2SF x = Prim2SF y -> SFfinite (Prim2SF y) = true ->
  Arith.eqvb Arith.float64 x y = true.
Proof.
  intros E Hy. rewrite float64_eqvb, E. unfold SFleb.
  rewrite (SFcompare_refl _ Hy). reflexivity.
Qed.

Lemma float64_order_laws : Arith.order_laws Arith.float64.
Proof.
  split; simpl.
  - reflexivity.
  - intros x y. rewrite FloatAxioms.ltb_spec, FloatAxioms.leb_spec. apply SFltb_leb.
  - intros x y z. rewrite !FloatAxioms.leb_spec. apply SFleb_trans.
Qed.

Lemma float64_zero_laws : Arith.zero_laws Arith.float64.
Proof.
  split.
  - intros x y Hx Hy. simpl. rewrite !FloatAxioms.leb_spec.
    apply SFleb_total; apply float64_finiteb_SF; assumption.
  - intros x Hx. apply float64_finiteb_SF in Hx. simpl.
    unfold PrimFloat.is_nan. rewrite FloatAxioms.eqb_spec. unfold SFeqb.
    rewrite (SFcompare_refl _ Hx). reflexivity.
  - intros z t Hz Ht. apply float64_eqvb_zero_SF in Hz. destruct Hz as [s Hz].
    apply float64_finiteb_SF in Ht.
    assert (E : exists s', Prim2SF (z * t)%float = S754_zero s').
    { rewrite FloatAxioms.mul_spec, Hz. unfold SF64mul.
      destruct (Prim2SF t) as [s'|s'| |s' m e]; try discriminate;
        simpl; eexists; reflexivity. }
    destruct E as [s' E].
    exact (float64_eqvb_zeros _ _ _ _ E Prim2SF_zero).
  - intros d t Hd Ht. apply float64_eqvb_zero_SF in Ht. destruct Ht as [s Ht].
    apply float64_finiteb_SF in Hd.
    assert (E : exists s', Prim2SF (d * t)%float = S754_zero s').
    { rewrite FloatAxioms.mul_spec, Ht. unfold SF64mul.
      destruct (Prim2SF d) as [s'|s'| |s' m e]; try discriminate;
        simpl; eexists; reflexivity. }
    destruct E as [s' E].
    exact (float64_eqvb_zeros _ _ _ _ E Prim2SF_zero).
  - intros a z Ha Hz. apply float64_eqvb_zero_SF in Hz. destruct Hz as [s Hz].
    apply float64_finiteb_SF in Ha. simpl Arith.add.
    destruct (Prim2SF a) as [sa|sa| |sa m e] eqn:Ea; try discriminate.
    + apply (float64_eqvb_zeros _ _
               (match sa, s with
                | true, true | false, false => sa
                | _, _ => false
                end) sa); [|exact Ea].
      rewrite FloatAxioms.add_spec, Ea, Hz. destruct sa, s; reflexivity.
    + apply float64_eqvb_same; [|rewrite Ea; reflexivity].
      rewrite FloatAxioms.add_spec, Ea, Hz. reflexivity.
  - intros a z Ha Hz. apply float64_eqvb_zero_SF in Hz. destruct Hz as [s Hz].
    apply float64_finiteb_SF in Ha. simpl Arith.sub.
    destruct (Prim2SF a) as [sa|sa| |sa m e] eqn:Ea; try discriminate.
    + apply (float64_eqvb_zeros _ _
               (match sa, s with
                | true, false | false, true => sa
                | _, _ => false
                end) sa); [|exact Ea].
      rewrite FloatAxioms.sub_spec, Ea, Hz. destruct sa, s; reflexivity.
    + apply float64_eqvb_same; [|rewrite Ea; reflexivity].
      rewrite FloatAxioms.sub_spec, Ea, Hz. reflexivity.
Qed.

(** The ranks of the percentiles 0 and 100 for up to [2^20] intervals. *)
Lemma extremes_in_range_spec (A : Arith.ops) (depth : nat) (k j : Z) :
  Arith.extremes_in_range A depth k = true ->
  (k <= j < k + 2 ^ Z.of_nat depth)%Z ->
  Arith.extremes_selected A j = true.
Proof.
  revert k. induction depth as [|d IH]; intros k H Hj; simpl in H.
  - replace j with k by (simpl in Hj; lia). exact H.
  - apply andb_prop in H. destruct H as [H1 H2].
    rewrite Nat2Z.inj_succ, Z.pow_succ_r in Hj by lia.
    destruct (Z_lt_le_dec j (k + 2 ^ Z.of_nat d)) as [Hlt|Hge].
    + apply (IH k H1). lia.
    + apply (IH _ H2). lia.
Qed.

Lemma float64_extremes_selected (j : Z) :
  (0 <= j < 2 ^ 20)%Z -> Arith.extremes_selected Arith.float64 j = true.
Proof.
  intros Hj. apply (extremes_in_range_spec Arith.float64 20 0); [|exact Hj].
  vm_compute. reflexivity.
Qed.

(** ** The laws in the rationals *)

Lemma exact_order_laws : Arith.order_laws Arith.exact.
Proof.
  split; simpl.
  - reflexivity.
  - intros x y H. apply Qltb_lt in H. apply Qle_bool_iff. lra.
  - intros x y z Hxy Hyz. apply Qle_bool_iff in Hxy, Hyz.
    apply Qle_bool_iff. lra.
Qed.

Lemma exact_rounding_laws : Arith.rounding_laws Arith.exact.
Proof.
  split; simpl.
  - intros x d Hx Hd. apply Qle_bool_iff in Hx, Hd.
    apply Qle_bool_iff. change (inject_Z 0) with 0 in *. lra.
  - intros x y H. apply Qltb_lt in H. apply Qltb_lt.
    change (inject_Z 0) with 0. lra.
Qed.

(** ** The float64 generator *)

Section Float64.

Variable rng : Type.
Variable rng_next : rng -> nat * rng.
Variable empty_percentile_raises : bool.

Local Abbreviation run :=
  (Arith.generate_async_timings Arith.float64 rng rng_next
     empty_percentile_raises).

(** C3, the behaviour of the code: a NaN [perc] is neither below 0 nor
    at least 50, so the test of lines 36-41 lets it pass; the call goes
    on to [np.diff] and [np.percentile], and [np.percentile] raises the
    [ValueError], whatever the sequence holds. *)
Theorem generate_nan_perc_value_error (l : loc) (seq : list float)
    (w : Arith.world Arith.float64 rng) :
  Arith.heap w !! l = Some seq ->
  PrimFloat.ltb nan 0 || PrimFloat.leb 50 nan = false /\
  Arith.np_percentile Arith.float64 rng empty_percentile_raises
    (Arith.diff Arith.float64 seq) nan w = (Raise ValueError, w) /\
  run l nan w = (Raise ValueError, w).
Proof.
  intros H. split; [reflexivity|].
  assert (Hp : Arith.np_percentile Arith.float64 rng empty_percentile_raises
                 (Arith.diff Arith.float64 seq) nan w
               = (Raise ValueError, w)) by reflexivity.
  split; [exact Hp|].
  unfold Arith.generate_async_timings.
  rewrite (arith_bind_return _ _ _ _ _ _ _
             (arith_check_sequence_some Arith.float64 rng l seq w H)).
  change (Arith.ltb Arith.float64 nan (Arith.of_Z Arith.float64 0)
          || Arith.leb Arith.float64 (Arith.of_Z Arith.float64 50) nan)
    with false.
  cbv zeta iota.
  exact (arith_bind_raise Arith.float64 rng _ _ w w ValueError Hp).
Qed.


End Float64.

(** ** Runs *)


(** The same run does not go back. *)
Example generate_rounding_tie_non_decreasing :
  Arith.non_decreasing Arith.float64
    [0; 4503599627370496; 9007199254740992; 9007199254740992]%float.
Proof. apply arith_non_decreasingb_sound. reflexivity. Qed.


(** C8, counterexample: in the run above the last gap, [2^53 - 2^53], is
    zero; zero is not an interval of the input, and it is below the
    lower edge of the band, which is 1. *)
Lemma generate_gap_outside_band :
  let seq := [0; 1; 2; 4503599627370498]%float in
  let w := SampleFloat.world_of 0 seq [2; 2; 0]%nat in
  let out :=
    [0; 4503599627370496; 9007199254740992; 9007199254740992]%float in
  let gap := (9007199254740992 - 9007199254740992)%float in
  Arith.returned (SampleFloat.generate 0%nat 0%float w) = Return out /\
  out !! 2%nat = Some 9007199254740992%float /\
  out !! 3%nat = Some 9007199254740992%float /\
  gap = 0%float /\
  ~ In gap (Arith.diff Arith.float64 seq) /\
  Arith.band_edge Arith.float64 (Arith.diff Arith.float64 seq) 0%float
  = Some 1%float /\
  PrimFloat.leb 1 gap = false.
Proof.
  intros seq w out gap.
  split; [vm_compute; reflexivity|].
  split; [reflexivity|]. split; [reflexivity|].
  split; [vm_compute; reflexivity|].
  split; [|split; vm_compute; reflexivity].
  intros Hin. vm_compute in Hin.
  assert (Hne : forall d : float,
            PrimFloat.eqb d 0 = false -> d <> 0%float).
  { intros d Hd E. rewrite E in Hd. vm_compute in Hd. discriminate. }
  destruct Hin as [E | [E | [E | []]]];
    revert E; apply Hne; vm_compute; reflexivity.
Qed.

Lemma generate_nan_perc_value_error_witness :
  let seq := [0; 1; 2; 3]%float in
  let w := SampleFloat.world_of 0 seq [2; 2; 0]%nat in
  Arith.heap w !! 0%nat = Some seq /\
  PrimFloat.ltb nan 0 || PrimFloat.leb 50 nan = false /\
  Arith.np_percentile Arith.float64 (list nat) true
    (Arith.diff Arith.float64 seq) nan w = (Raise ValueError, w) /\
  SampleFloat.generate 0%nat nan w = (Raise ValueError, w).
Proof.
  intros seq w.
  assert (H : Arith.heap w !! 0%nat = Some seq) by reflexivity.
  split; [exact H|].
  exact (generate_nan_perc_value_error (list nat) SampleFloat.tape_next true
           0%nat seq w H).
Defined.



Lemma generate_adds_retained_interval_witness :
  let seq := [0; 1; 3; 4; 100]%float in
  let w := SampleFloat.world_of 0 seq [7; 8; 9; 10]%nat in
  let r := SampleFloat.generate 0%nat 10%float w in
  let out := [0; 2; 3; 4; 6]%float in
  Arith.heap w !! 0%nat = Some seq /\
  r = (Return 1%nat, snd r) /\ Arith.heap (snd r) !! 1%nat = Some out /\
  forall (k : nat) (x y : float),
    out !! k = Some x -> out !! S k = Some y ->
    exists d : float,
      y = (x + d)%float /\
      In d (Arith.diff Arith.float64 seq) /\
      exists lo hi : float,
        Arith.band_edge Arith.float64 (Arith.diff Arith.float64 seq)
          10%float = Some lo /\
        Arith.band_edge Arith.float64 (Arith.diff Arith.float64 seq)
          (100 - 10)%float = Some hi /\
        PrimFloat.leb lo d = true /\ PrimFloat.leb d hi = true.
Proof.
  intros seq w r out.
  assert (H : Arith.heap w !! 0%nat = Some seq) by reflexivity.
  assert (Hf : fst r = Return 1%nat) by (vm_compute; reflexivity).
  assert (Hr : r = (Return 1%nat, snd r))
    by (rewrite <- Hf; apply surjective_pairing).
  assert (Hout : Arith.heap (snd r) !! 1%nat = Some out)
    by (vm_compute; reflexivity).
  repeat (split; [assumption|]).
  exact (generate_adds_retained_interval Arith.float64 (list nat)
           SampleFloat.tape_next true 0%nat 1%nat seq out 10%float w (snd r)
           H Hr Hout).
Defined.

(** The values of [perc] named by the specification, and the unit steps of
    [0, 1, 2, 3, 4, 5], in float64. *)
Example generate_perc_minus_one_float64 :
  Arith.returned
    (SampleFloat.generate 0%nat (-1)%float
       (SampleFloat.world_of 0 [0; 1; 2; 3]%float []))
  = Raise ValueError.
Proof. vm_compute. reflexivity. Qed.

Example generate_perc_fifty_float64 :
  Arith.returned
    (SampleFloat.generate 0%nat 50%float
       (SampleFloat.world_of 0 [0; 1; 2; 3]%float []))
  = Raise ValueError.
Proof. vm_compute. reflexivity. Qed.

Example generate_perc_zero_float64 :
  Arith.returned
    (SampleFloat.generate 0%nat 0%float
       (SampleFloat.world_of 0 [0; 1; 3; 4; 100]%float [7; 8; 9; 10]%nat))
  = Return [0; 96; 97; 99; 100]%float.
Proof. vm_compute. reflexivity. Qed.

Example generate_unit_steps_float64 :
  Arith.returned
    (SampleFloat.generate 0%nat 10%float
       (SampleFloat.world_of 0 [0; 1; 2; 3; 4; 5]%float [3; 1; 4; 1; 5]%nat))
  = Return [0; 1; 2; 3; 4; 5]%float.
Proof. vm_compute. reflexivity. Qed.

(** * More properties *)

(** ** Inputs that are too short *)

Section GeneratorBounds.

Variable rng : Type.
Variable rng_next : rng -> nat * rng.
Variable empty_percentile_raises : bool.

Local Abbreviation generate :=
  (generate_async_timings rng rng_next empty_percentile_raises).
Local Abbreviation choose := (draws rng rng_next).

(** X6: an input of fewer than two timings never yields an array: the
    call raises and leaves the world as it was, whatever perc is. *)
Theorem generate_short_input_raises (l : loc) (seq : list Q) (perc : Q)
    (w : world rng) :
  heap w !! l = Some seq -> (length seq < 2)%nat ->
  exists e : exn, generate l perc w = (Raise e, w).
Proof.
  intros H Hn.
  destruct (generate_cases rng rng_next empty_percentile_raises l perc w)
    as [He | (seq' & H' & _ & _ & Hp & _)]; [exact He|].
  exfalso. rewrite H in H'. injection H' as <-.
  apply Hp. apply retained_pool_short.
  destruct (Np.diff seq) as [|d t] eqn:Hd; [reflexivity|].
  pose proof (diff_length seq) as Hl. rewrite Hd in Hl. simpl in Hl. lia.
Qed.

End GeneratorBounds.

(** ** The loader, condition by condition *)

Section ConfigMore.

Local Open Scope string_scope.

Variable py_int : string -> option Z.
Variable py_float : string -> option Q.

Local Abbreviation to_int := (int_items py_int).
Local Abbreviation load := (load_config py_int py_float).
Local Abbreviation ints_ok :=
  (map_Forall (fun (_ : string) v => is_Some (py_int v))).

Lemma int_items_accepts (sec : gmap string string) :
  ints_ok sec -> to_int sec = Return (omap (fun v => PyInt <$> py_int v) sec).
Proof. intros H. unfold int_items. rewrite decide_True by exact H. reflexivity. Qed.

Lemma int_items_rejects (sec : gmap string string) :
  ~ ints_ok sec -> to_int sec = Raise ValueError.
Proof. intros H. unfold int_items. rewrite decide_False by exact H. reflexivity. Qed.

(** Conversion keeps the keys. *)
Lemma converted_key (sec : gmap string string) (key : string) :
  ints_ok sec ->
  contains (omap (fun v => PyInt <$> py_int v) sec) key = contains sec key.
Proof.
  intros H. unfold contains. apply bool_decide_ext.
  rewrite lookup_omap. destruct (sec !! key) as [v|] eqn:E; simpl.
  - destruct (H key v E) as [z Hz]. rewrite Hz. simpl. split; eauto.
  - split; intros [? ?]; discriminate.
Qed.

Lemma contains_true {V} (d : gmap string V) (key : string) :
  contains d key = true <-> is_Some (d !! key).
Proof. unfold contains. apply bool_decide_eq_true. Qed.

Lemma getfloat_raise (sec : gmap string string) (key : string) (e : exn) :
  getfloat py_float sec key = Raise e -> e = ValueError.
Proof.
  unfold getfloat. destruct (sec !! key) as [v|]; [|discriminate].
  destruct (py_float v); [discriminate|]. intros E. injection E as <-.
  reflexivity.
Qed.

Local Abbreviation conv := (omap (fun v => PyInt <$> py_int v)).

(** A block without a float field is the converted section. *)
Lemma typed_section_int (dst : string) (sec : gmap string string) :
  (forall key, float_field dst key = false) ->
  typed_section py_int py_float dst sec = conv sec.
Proof.
  intros Hf. apply map_eq. intros key.
  unfold typed_section. rewrite map_lookup_imap, lookup_omap.
  destruct (sec !! key) as [v|]; [|reflexivity]. simpl.
  unfold converted. rewrite Hf. reflexivity.
Qed.

(** A stimulation block is the converted section with [edge_perc]
    overwritten. *)
Lemma typed_section_float (dst : string) (sec : gmap string string)
    (v : string) (x : Q) :
  dst ∈ ["sync"; "iso"; "async"] ->
  sec !! "edge_perc" = Some v -> py_float v = Some x ->
  typed_section py_int py_float dst sec
  = <["edge_perc" := PyFloat x]> (conv sec).
Proof.
  intros Hd Hv Hx. apply map_eq. intros key.
  unfold typed_section. rewrite map_lookup_imap.
  unfold converted, float_field. rewrite (bool_decide_eq_true_2 _ Hd).
  simpl. destruct (decide (key = "edge_perc")) as [->|Hne].
  - rewrite lookup_insert_eq, Hv. simpl.
    rewrite Hx. reflexivity.
  - rewrite lookup_insert_ne by congruence. rewrite lookup_omap.
    destruct (sec !! key) as [u|]; [|reflexivity]. simpl.
    rewrite bool_decide_eq_false_2 by exact Hne. reflexivity.
Qed.

Lemma forallb_converted (sec : gmap string string) (keys : list string) :
  ints_ok sec -> forallb (contains (conv sec)) keys = forallb (contains sec) keys.
Proof.
  intros H. induction keys as [|k keys IH]; simpl; [reflexivity|].
  rewrite converted_key by exact H. rewrite IH. reflexivity.
Qed.

Lemma getfloat_some (sec : gmap string string) (key v : string) (f : pyval) :
  sec !! key = Some v -> getfloat py_float sec key = Return f ->
  exists x, py_float v = Some x /\ f = PyFloat x.
Proof.
  intros Hv. unfold getfloat. rewrite Hv.
  destruct (py_float v) as [x|]; [|discriminate].
  intros E. injection E as <-. eauto.
Qed.

Lemma sections_present_iff (config : gmap string (gmap string string)) :
  sections_present config
  <-> forallb (contains config) required_sections = true.
Proof.
  unfold sections_present, required_sections. cbn [forallb].
  rewrite !Forall_cons, Forall_nil, !andb_true_iff, !contains_true.
  tauto.
Qed.

Lemma keys_present_iff (config : gmap string (gmap string string)) :
  keys_present config
  <-> contains (section config "block") "inter_block" = true /\
      contains (section config "baseline") "duration" = true /\
      forallb (contains (section config "synchronous")) stimuli_keys = true /\
      forallb (contains (section config "isochronous")) stimuli_keys = true /\
      forallb (contains (section config "asynchronous")) stimuli_keys = true.
Proof.
  unfold keys_present, stimulation_sections, stimuli_keys. cbn [forallb].
  rewrite !Forall_cons, !Forall_nil, !andb_true_iff, !contains_true.
  tauto.
Qed.

Lemma ints_accepted_iff (config : gmap string (gmap string string)) :
  ints_accepted py_int config
  <-> ints_ok (section config "block") /\
      ints_ok (section config "baseline") /\
      ints_ok (section config "synchronous") /\
      ints_ok (section config "isochronous") /\
      ints_ok (section config "asynchronous").
Proof.
  unfold ints_accepted, required_sections.
  rewrite !Forall_cons, Forall_nil. tauto.
Qed.

Lemma floats_accepted_iff (config : gmap string (gmap string string)) :
  floats_accepted py_float config
  <-> (forall v, section config "synchronous" !! "edge_perc" = Some v ->
                 is_Some (py_float v)) /\
      (forall v, section config "isochronous" !! "edge_perc" = Some v ->
                 is_Some (py_float v)) /\
      (forall v, section config "asynchronous" !! "edge_perc" = Some v ->
                 is_Some (py_float v)).
Proof.
  unfold floats_accepted, stimulation_sections.
  rewrite !Forall_cons, Forall_nil. tauto.
Qed.

Lemma edge_perc_present (sec : gmap string string) :
  forallb (contains sec) stimuli_keys = true ->
  exists v, sec !! "edge_perc" = Some v.
Proof.
  unfold stimuli_keys. cbn [forallb]. rewrite !andb_true_iff, !contains_true.
  intros (_ & _ & [v Hv] & _). eauto.
Qed.

(** The five ways a load can end, in the order the checks are made. *)
Lemma load_config_outcome (config : gmap string (gmap string string)) :
  (~ sections_present config /\ load config = Raise ValueError) \/
  (sections_present config /\ ~ ints_accepted py_int config /\
   load config = Raise ValueError) \/
  (sections_present config /\ ints_accepted py_int config /\
   ~ keys_present config /\ load config = Raise AssertionError) \/
  (sections_present config /\ ints_accepted py_int config /\
   keys_present config /\ ~ floats_accepted py_float config /\
   load config = Raise ValueError) \/
  (sections_present config /\ ints_accepted py_int config /\
   keys_present config /\ floats_accepted py_float config /\
   load config = Return (loaded py_int py_float config)).
Proof.
  unfold load_config.
  destruct (forallb (contains config) required_sections) eqn:Es; cbn [negb].
  2:{ left. split; [|reflexivity]. rewrite sections_present_iff. congruence. }
  apply sections_present_iff in Es. right.
  destruct (decide (ints_ok (section config "block"))) as [I1|I1].
  2:{ left. split; [exact Es|]. rewrite ints_accepted_iff.
      rewrite (int_items_rejects _ I1). split; [tauto|reflexivity]. }
  rewrite (int_items_accepts _ I1). cbn [obind].
  destruct (decide (ints_ok (section config "baseline"))) as [I2|I2].
  2:{ left. split; [exact Es|]. rewrite ints_accepted_iff.
      rewrite (int_items_rejects _ I2). split; [tauto|reflexivity]. }
  rewrite (int_items_accepts _ I2). cbn [obind].
  destruct (decide (ints_ok (section config "synchronous"))) as [I3|I3].
  2:{ left. split; [exact Es|]. rewrite ints_accepted_iff.
      rewrite (int_items_rejects _ I3). split; [tauto|reflexivity]. }
  rewrite (int_items_accepts _ I3). cbn [obind].
  destruct (decide (ints_ok (section config "isochronous"))) as [I4|I4].
  2:{ left. split; [exact Es|]. rewrite ints_accepted_iff.
      rewrite (int_items_rejects _ I4). split; [tauto|reflexivity]. }
  rewrite (int_items_accepts _ I4). cbn [obind].
  destruct (decide (ints_ok (section config "asynchronous"))) as [I5|I5].
  2:{ left. split; [exact Es|]. rewrite ints_accepted_iff.
      rewrite (int_items_rejects _ I5). split; [tauto|reflexivity]. }
  rewrite (int_items_accepts _ I5). cbn [obind].
  assert (Hi : ints_accepted py_int config)
    by (apply ints_accepted_iff; tauto).
  right. rewrite !converted_key, !forallb_converted by assumption.
  destruct (contains (section config "block") "inter_block") eqn:K1;
    cbn [assert_ obind].
  2:{ left. repeat split; try assumption.
      rewrite keys_present_iff. intros (? & _). congruence. }
  destruct (contains (section config "baseline") "duration") eqn:K2;
    cbn [assert_ obind].
  2:{ left. repeat split; try assumption.
      rewrite keys_present_iff. intros (_ & ? & _). congruence. }
  destruct (forallb (contains (section config "synchronous")) stimuli_keys)
    eqn:K3; cbn [assert_ obind].
  2:{ left. repeat split; try assumption.
      rewrite keys_present_iff. intros (_ & _ & ? & _). congruence. }
  destruct (forallb (contains (section config "isochronous")) stimuli_keys)
    eqn:K4; cbn [assert_ obind].
  2:{ left. repeat split; try assumption.
      rewrite keys_present_iff. intros (_ & _ & _ & ? & _). congruence. }
  destruct (forallb (contains (section config "asynchronous")) stimuli_keys)
    eqn:K5; cbn [assert_ obind].
  2:{ left. repeat split; try assumption.
      rewrite keys_present_iff. intros (_ & _ & _ & _ & ?). congruence. }
  assert (Hk : keys_present config) by (apply keys_present_iff; auto).
  right.
  destruct (edge_perc_present _ K3) as [v3 V3].
  destruct (edge_perc_present _ K4) as [v4 V4].
  destruct (edge_perc_present _ K5) as [v5 V5].
  destruct (getfloat py_float (section config "synchronous") "edge_perc")
    as [fs|e] eqn:F3; cbn [obind].
  2:{ left. rewrite (getfloat_raise _ _ _ F3).
      refine (conj Es (conj Hi (conj Hk (conj _ eq_refl)))).
      rewrite floats_accepted_iff. intros (Hf & _).
      destruct (Hf v3 V3) as [x Hx]. unfold getfloat in F3.
      rewrite V3, Hx in F3. discriminate. }
  destruct (getfloat py_float (section config "isochronous") "edge_perc")
    as [fi|e] eqn:F4; cbn [obind].
  2:{ left. rewrite (getfloat_raise _ _ _ F4).
      refine (conj Es (conj Hi (conj Hk (conj _ eq_refl)))).
      rewrite floats_accepted_iff. intros (_ & Hf & _).
      destruct (Hf v4 V4) as [x Hx]. unfold getfloat in F4.
      rewrite V4, Hx in F4. discriminate. }
  destruct (getfloat py_float (section config "asynchronous") "edge_perc")
    as [fa|e] eqn:F5; cbn [obind].
  2:{ left. rewrite (getfloat_raise _ _ _ F5).
      refine (conj Es (conj Hi (conj Hk (conj _ eq_refl)))).
      rewrite floats_accepted_iff. intros (_ & _ & Hf).
      destruct (Hf v5 V5) as [x Hx]. unfold getfloat in F5.
      rewrite V5, Hx in F5. discriminate. }
  right.
  destruct (getfloat_some _ _ _ _ V3 F3) as (x3 & X3 & ->).
  destruct (getfloat_some _ _ _ _ V4 F4) as (x4 & X4 & ->).
  destruct (getfloat_some _ _ _ _ V5 F5) as (x5 & X5 & ->).
  refine (conj Es (conj Hi (conj Hk (conj _ _)))).
  - apply floats_accepted_iff. repeat split; intros v Hv.
    + rewrite V3 in Hv. injection Hv as <-. eauto.
    + rewrite V4 in Hv. injection Hv as <-. eauto.
    + rewrite V5 in Hv. injection Hv as <-. eauto.
  - unfold loaded.
    rewrite !(typed_section_int "block") by (intros key; reflexivity).
    rewrite !(typed_section_int "baseline") by (intros key; reflexivity).
    rewrite (typed_section_float "sync" _ v3 x3) by (try set_solver; assumption).
    rewrite (typed_section_float "iso" _ v4 x4) by (try set_solver; assumption).
    rewrite (typed_section_float "async" _ v5 x5) by (try set_solver; assumption).
    reflexivity.
Qed.

(** The conversion of an accepted configuration drops nothing. *)
Lemma converted_some (config : gmap string (gmap string string))
    (src dst key v : string) :
  (src, dst) ∈ renaming ->
  ints_accepted py_int config -> floats_accepted py_float config ->
  section config src !! key = Some v ->
  is_Some (converted py_int py_float dst key v).
Proof.
  intros Hr Hi Hf Hv. unfold converted.
  apply ints_accepted_iff in Hi. destruct Hi as (I1 & I2 & I3 & I4 & I5).
  apply floats_accepted_iff in Hf. destruct Hf as (F3 & F4 & F5).
  unfold renaming in Hr.
  repeat (apply elem_of_cons in Hr; destruct Hr as [Hr|Hr];
          [injection Hr as -> ->|]);
    [| | | | |apply elem_of_nil in Hr; destruct Hr].
  - destruct (I1 key v Hv) as [z ->]. simpl. eauto.
  - destruct (I2 key v Hv) as [z ->]. simpl. eauto.
  - unfold float_field. simpl.
    destruct (decide (key = "edge_perc")) as [->|Hne].
    + simpl. destruct (F3 v Hv) as [x ->]. simpl. eauto.
    + rewrite bool_decide_eq_false_2 by exact Hne.
      destruct (I3 key v Hv) as [z ->]. simpl. eauto.
  - unfold float_field. simpl.
    destruct (decide (key = "edge_perc")) as [->|Hne].
    + simpl. destruct (F4 v Hv) as [x ->]. simpl. eauto.
    + rewrite bool_decide_eq_false_2 by exact Hne.
      destruct (I4 key v Hv) as [z ->]. simpl. eauto.
  - unfold float_field. simpl.
    destruct (decide (key = "edge_perc")) as [->|Hne].
    + simpl. destruct (F5 v Hv) as [x ->]. simpl. eauto.
    + rewrite bool_decide_eq_false_2 by exact Hne.
      destruct (I5 key v Hv) as [z ->]. simpl. eauto.
Qed.

Lemma loaded_lookup (config : gmap string (gmap string string))
    (src dst : string) :
  (src, dst) ∈ renaming ->
  loaded py_int py_float config !! dst
  = Some (typed_section py_int py_float dst (section config src)).
Proof.
  intros Hr. unfold renaming in Hr.
  repeat (apply elem_of_cons in Hr; destruct Hr as [Hr|Hr];
          [injection Hr as -> ->; reflexivity|]).
  apply elem_of_nil in Hr. destruct Hr.
Qed.

Lemma loaded_lookup_other (config : gmap string (gmap string string))
    (name : string) :
  name ∉ ["block"; "baseline"; "sync"; "iso"; "async"] ->
  loaded py_int py_float config !! name = None.
Proof.
  intros Hn. unfold loaded.
  rewrite !lookup_insert_ne by set_solver. apply lookup_empty.
Qed.

(** X7: the loader returns exactly when the five sections are there,
    [int] accepts every value of every one of them ([edge_perc]
    included), the asserted keys are there, and [float] accepts the three
    [edge_perc]. *)
Theorem load_config_returns_iff (config : gmap string (gmap string string)) :
  (exists r, load config = Return r)
  <-> sections_present config /\ ints_accepted py_int config /\
      keys_present config /\ floats_accepted py_float config.
Proof.
  destruct (load_config_outcome config)
    as [(N & E) | [(S & N & E) | [(S & I & N & E) |
        [(S & I & K & N & E) | (S & I & K & F & E)]]]]; rewrite E.
  - split; [intros [r Hr]; discriminate | tauto].
  - split; [intros [r Hr]; discriminate | tauto].
  - split; [intros [r Hr]; discriminate | tauto].
  - split; [intros [r Hr]; discriminate | tauto].
  - split; [tauto | eauto].
Qed.

(** X8: what a returned configuration holds.  Each section of the file
    appears under its block name ([synchronous] as [sync], [isochronous]
    as [iso], [asynchronous] as [async]) with exactly its own options,
    each converted ([float] for the [edge_perc] of the three stimulation
    blocks, [int] for the rest); there is no other block. *)
Theorem load_config_result (config : gmap string (gmap string string))
    (r : gmap string (gmap string pyval)) :
  load config = Return r ->
  (forall src dst : string,
     (src, dst) ∈ renaming ->
     exists d : gmap string pyval,
       r !! dst = Some d /\
       forall key : string,
         d !! key
         = section config src !! key ≫= converted py_int py_float dst key /\
         (is_Some (d !! key) <-> is_Some (section config src !! key))) /\
  (forall name : string,
     name ∉ ["block"; "baseline"; "sync"; "iso"; "async"] ->
     r !! name = None).
Proof.
  intros Hr.
  destruct (load_config_outcome config)
    as [(N & E) | [(S & N & E) | [(S & I & N & E) |
        [(S & I & K & N & E) | (S & I & K & F & E)]]]];
    rewrite E in Hr; try discriminate.
  injection Hr as <-. split.
  - intros src dst Hsd. eexists. split; [exact (loaded_lookup config src dst Hsd)|].
    intros key. unfold typed_section. rewrite map_lookup_imap.
    split; [reflexivity|].
    destruct (section config src !! key) as [v|] eqn:Hv; simpl.
    + split; [eauto|]. intros _.
      exact (converted_some config src dst key v Hsd I F Hv).
    + split; intros [? ?]; discriminate.
  - apply loaded_lookup_other.
Qed.


End ConfigMore.

(** ** The trigger loader *)

Section TriggerProperties.

Local Open Scope string_scope.

Context {V : Type}.
Implicit Types (tdef : gmap string V) (key : string).

Lemma check_keys_none tdef (remaining : list string) :
  Triggers.check_keys tdef remaining = None
  <-> forall key, In key remaining -> is_Some (tdef !! key).
Proof.
  induction remaining as [|k rest IH]; simpl.
  - split; [intros _ key []|reflexivity].
  - destruct (contains tdef k) eqn:E.
    + apply bool_decide_eq_true_1 in E. rewrite IH. split.
      * intros H key [<- | Hin]; auto.
      * intros H key Hin. apply H. right. exact Hin.
    + apply bool_decide_eq_false_1 in E. split; [discriminate|].
      intros H. exfalso. apply E. apply H. left. reflexivity.
Qed.

Lemma check_keys_some tdef (remaining : list string) key :
  Triggers.check_keys tdef remaining = Some key
  <-> exists before after : list string,
        remaining = (before ++ key :: after)%list /\
        tdef !! key = None /\
        forall k, In k before -> is_Some (tdef !! k).
Proof.
  induction remaining as [|k rest IH]; simpl.
  - split; [discriminate|]. intros (before & after & E & _).
    destruct before; discriminate.
  - destruct (contains tdef k) eqn:E.
    + apply bool_decide_eq_true_1 in E. rewrite IH. split.
      * intros (before & after & -> & Hn & Hb).
        exists (k :: before), after. split; [reflexivity|].
        split; [exact Hn|]. intros k' [<- | Hin]; auto.
      * intros (before & after & Eq & Hn & Hb).
        destruct before as [|b before]; simpl in Eq; injection Eq as <- ->.
        -- rewrite Hn in E. destruct E as [? ?]. discriminate.
        -- exists before, after. split; [reflexivity|].
           split; [exact Hn|]. intros k' Hin. apply Hb. right. exact Hin.
    + apply bool_decide_eq_false_1 in E.
      assert (Hk : tdef !! k = None).
      { destruct (tdef !! k) eqn:Ek; [|reflexivity].
        exfalso. apply E. eauto. }
      split.
      * intros Eq. injection Eq as <-.
        exists [], rest. split; [reflexivity|]. split; [exact Hk|].
        intros k' [].
      * intros (before & after & Eq & Hn & Hb).
        destruct before as [|b before]; simpl in Eq; injection Eq as <- ->.
        -- reflexivity.
        -- exfalso. apply E. apply Hb. left. reflexivity.
Qed.

(** X11: [load_triggers] hands back the trigger definition, unchanged,
    exactly when all ten names are defined in it. *)
Theorem load_triggers_loaded_iff tdef (t : gmap string V) :
  Triggers.load_triggers tdef = Triggers.Loaded t
  <-> t = tdef /\ forall key, In key Triggers.keys -> is_Some (tdef !! key).
Proof.
  unfold Triggers.load_triggers.
  destruct (Triggers.check_keys tdef Triggers.keys) as [k|] eqn:E.
  - split; [discriminate|]. intros [_ H].
    apply (proj2 (check_keys_none tdef Triggers.keys)) in H. congruence.
  - pose proof (proj1 (check_keys_none tdef Triggers.keys) E) as H. split.
    + intros Eq. injection Eq as <-. auto.
    + intros [-> _]. reflexivity.
Qed.

(** X12: [load_triggers] fails on [key] exactly when [key] is the first
    of the ten names, in the order of the source, that the trigger
    definition lacks. *)
Theorem load_triggers_missing_iff tdef key :
  Triggers.load_triggers tdef = Triggers.MissingKey key
  <-> exists before after : list string,
        Triggers.keys = (before ++ key :: after)%list /\
        tdef !! key = None /\
        forall k, In k before -> is_Some (tdef !! k).
Proof.
  rewrite <- check_keys_some. unfold Triggers.load_triggers.
  destruct (Triggers.check_keys tdef Triggers.keys) as [k|].
  - split; intros E; injection E as <-; reflexivity.
  - split; discriminate.
Qed.

End TriggerProperties.

(** ** The extra properties on sample inputs *)

Lemma generate_short_input_raises_witness :
  let seq := [5] in
  let w := Sample.world_of 0 seq 7 in
  heap w !! 0%nat = Some seq /\ (length seq < 2)%nat /\
  exists e : exn, Sample.generate 0%nat 10 w = (Raise e, w).
Proof.
  intros seq w.
  assert (H : heap w !! 0%nat = Some seq) by reflexivity.
  assert (Hn : (length seq < 2)%nat) by (simpl; lia).
  repeat (split; [assumption|]).
  exact (generate_short_input_raises nat Sample.counter_next true
           0%nat seq 10 w H Hn).
Defined.

Lemma load_config_result_witness :
  load_config Sample.decimal_int Sample.decimal_float Sample.config_ok
  = Return Sample.loaded_ok /\
  (forall src dst : string,
     (src, dst) ∈ renaming ->
     exists d : gmap string pyval,
       Sample.loaded_ok !! dst = Some d /\
       forall key : string,
         d !! key
         = section Sample.config_ok src !! key
           ≫= converted Sample.decimal_int Sample.decimal_float dst key /\
         (is_Some (d !! key)
          <-> is_Some (section Sample.config_ok src !! key))) /\
  (forall name : string,
     name ∉ ["block"; "baseline"; "sync"; "iso"; "async"]%string ->
     Sample.loaded_ok !! name = None).
Proof.
  assert (H : load_config Sample.decimal_int Sample.decimal_float
                Sample.config_ok = Return Sample.loaded_ok)
    by (vm_compute; reflexivity).
  split; [exact H|].
  exact (load_config_result Sample.decimal_int Sample.decimal_float
           Sample.config_ok Sample.loaded_ok H).
Defined.
